(** * js-ipld 0.22: the IPLD resolver ([src/index.js])

    A shallow embedding of [IPLDResolver]: the codec registry
    ([addFormat], [removeFormat], [_getFormat]), the path resolver
    ([resolve]), the bulk writer ([put]), the remover ([remove]) and the
    tree enumerator ([tree]).

    JavaScript values are an inductive type, the mutable fields of the
    resolver and of each iterator closure are explicit state, and every
    call to an injected collaborator (block service, loader) is appended
    to a trace.  [throw] and rejected promises are the [Err] outcome of a
    state-and-error monad; state changes made before a throw persist, as
    they do in JavaScript. *)

From Stdlib Require Import ZArith Ascii String List.
From stdpp Require Import base option gmap strings list pretty.

Set Warnings "-register-all".
Local Open Scope string_scope.
Local Open Scope Z_scope.

(** ** JavaScript values *)

(** A [cids] instance: [version], [codec] (a codec name in cids 0.5) and
    [multihash] are its own enumerable properties. *)
Record CID := mkCID {
  cid_version : Z;
  cid_codec : string;
  cid_multihash : string
}.

#[global] Instance CID_eq_dec : EqDecision CID.
Proof. solve_decision. Defined.

Inductive jsval :=
  | VUndefined
  | VNull
  | VBool (b : bool)
  | VNum (n : Z)
  | VStr (s : string)
  | VCID (c : CID)
  | VObj (fields : list (string * jsval))
  | VArr (items : list jsval).

(** [Buffer] contents. *)
Definition bytes := string.

(** An [ipfs-block]. *)
Record Block := mkBlock {
  block_data : bytes;
  block_cid : CID
}.

#[global] Instance Block_eq_dec : EqDecision Block.
Proof. solve_decision. Defined.

(** What can be thrown.  [ExtError] is any failure of a collaborator
    (block service, codec, loader), propagated verbatim. *)
Inductive error :=
  | TypeError (msg : string)
  | ArgError (msg : string)
  | ResolverExists (codec : Z)
  | NoResolverFound (codec : option Z)
  | CodecNotFound (name : string)
  | InvalidCID
  | ExtError (msg : string).

Inductive result (A : Type) :=
  | Ok (a : A)
  | Err (e : error).
Arguments Ok {A} a.
Arguments Err {A} e.

(** [CID.isCID]. *)
Definition isCID (v : jsval) : bool :=
  match v with VCID _ => true | _ => false end.

(** The boolean a value converts to in a condition. *)
Definition truthy (v : jsval) : bool :=
  match v with
  | VUndefined | VNull => false
  | VBool b => b
  | VNum n => negb (n =? 0)
  | VStr s => negb (String.eqb s "")
  | VCID _ | VObj _ | VArr _ => true
  end.

(** [typeof v === 'object']; [typeof null] is ['object'] too. *)
Definition typeof_is_object (v : jsval) : bool :=
  match v with
  | VNull | VCID _ | VObj _ | VArr _ => true
  | _ => false
  end.

Fixpoint assoc (k : string) (fields : list (string * jsval)) : option jsval :=
  match fields with
  | [] => None
  | (k', v) :: rest => if String.eqb k k' then Some v else assoc k rest
  end.

Definition index_keys (n : nat) : list string :=
  map (fun i => pretty (N.of_nat i)) (seq 0 n).

(** [Object.keys(v)]: the own enumerable property names.  [null] and
    [undefined] cannot be converted to an object; a string has one index
    key per character; numbers and booleans have none. *)
Definition Object_keys (v : jsval) : result (list string) :=
  match v with
  | VUndefined | VNull =>
      Err (TypeError "Cannot convert undefined or null to object")
  | VBool _ | VNum _ => Ok []
  | VStr s => Ok (index_keys (String.length s))
  | VCID _ => Ok ["version"; "codec"; "multihash"]
  | VObj fields => Ok (map fst fields)
  | VArr items => Ok (index_keys (List.length items))
  end.

(** ['/' in v]: the right operand of [in] must be an object. *)
Definition slash_in (v : jsval) : result bool :=
  match v with
  | VObj fields => Ok (bool_decide (is_Some (assoc "/" fields)))
  | VCID _ | VArr _ => Ok false
  | _ => Err (TypeError "Cannot use 'in' operator to search for '/'")
  end.

(** [v['/']] on a value that is neither [null] nor [undefined]. *)
Definition get_slash (v : jsval) : jsval :=
  match v with
  | VObj fields => default VUndefined (assoc "/" fields)
  | _ => VUndefined
  end.

(** ** The state-and-error monad *)

Definition M (S A : Type) : Type := S -> result A * S.

Definition ret {S A} (a : A) : M S A := fun s => (Ok a, s).

Definition throw {S A} (e : error) : M S A := fun s => (Err e, s).

Definition bind {S A B} (m : M S A) (k : A -> M S B) : M S B :=
  fun s =>
    match m s with
    | (Ok a, s') => k a s'
    | (Err e, s') => (Err e, s')
    end.

Definition lift_result {S A} (r : result A) : M S A :=
  fun s => (r, s).

Definition get_state {S} : M S S := fun s => (Ok s, s).

Definition modify {S} (f : S -> S) : M S unit := fun s => (Ok tt, f s).

Notation "'let*' x ':=' c 'in' k" := (bind c (fun x => k))
  (at level 10, x pattern, c at level 100, k at level 200).
Notation "c ';;' k" := (bind c (fun _ => k))
  (at level 100, right associativity).

(** ** Formats and collaborators *)

(** What a codec's [resolver.resolve] calls back with, and what a step of
    [resolve] emits. *)
Record Step := mkStep {
  remainderPath : string;
  value : jsval
}.

(** [format.resolver]: [resolve_in_node] is its [resolve], [tree_of_node]
    its [tree] (the short names are the resolver's own methods below);
    the path handed to [isLink] is [undefined] when the buffer of [tree]
    was empty. *)
Record Resolver := mkResolver {
  multicodec : string;
  resolve_in_node : bytes -> string -> result Step;
  tree_of_node : bytes -> result (list string);
  isLink : bytes -> option string -> result jsval
}.

Record CidOptions := mkCidOptions {
  co_version : jsval;
  co_hashAlg : jsval;
  co_onlyHash : jsval
}.

(** [format.util]: [cid_of_node] is its [cid]. *)
Record Util := mkUtil {
  serialize : jsval -> result bytes;
  deserialize : bytes -> result jsval;
  cid_of_node : jsval -> CidOptions -> result CID
}.

(** An IPLD Format object, and also an entry of [this.resolvers]: a
    property the object does not have reads as [VUndefined]. *)
Record Format := mkFormat {
  resolver : Resolver;
  util : Util;
  defaultHashAlg : jsval
}.

(** The injected collaborators and the libraries the resolver calls:
    the block service ([bs_get], [bs_put], [bs_delete]), [new CID(x)],
    [multicodec.getCode (multicodec.getCodeVarint name)], the constant
    table [multicodec[NAME]] and [options.loadFormat] ([None] when it is
    not a function). *)
Class Collaborators := {
  Store : Type;
  bs_get : CID -> Store -> result Block;
  bs_put : Block -> Store -> result unit * Store;
  bs_delete : CID -> Store -> result unit * Store;
  CID_new : jsval -> result CID;
  getCode : string -> result Z;
  multicodec_const : string -> option Z;
  options_loadFormat : option (option Z -> result Format)
}.

Inductive event :=
  | EvLoad (codec : option Z)
  | EvGet (c : CID)
  | EvPut (b : Block)
  | EvDelete (c : CID).

(** [codec.toUpperCase().replace(/-/g, '_')] *)
Definition upper_ascii (a : ascii) : ascii :=
  let n := nat_of_ascii a in
  if ((97 <=? n) && (n <=? 122))%nat then ascii_of_nat (n - 32) else a.

Fixpoint constant_name (s : string) : string :=
  match s with
  | EmptyString => EmptyString
  | String a rest =>
      String (if Ascii.eqb a "-" then "_"%char else upper_ascii a)
             (constant_name rest)
  end.

(** The codec argument of [_getFormat]: a number, or (from a [cids] 0.5
    instance) a codec name. *)
Inductive codec_arg :=
  | CodecNum (n : Z)
  | CodecName (s : string).

Definition is_store_call (ev : event) : bool :=
  match ev with EvLoad _ => false | _ => true end.

(** The calls of the block service in a trace. *)
Definition store_calls (t : list event) : list event :=
  List.filter is_store_call t.

(** What one call of an iterator's [next] settles to: [{ done: true }],
    [{ done: false, value }], or (in [tree]) the tail call
    [return next()]. *)
Inductive iter_result (V : Type) :=
  | IDone
  | IValue (v : V)
  | IAgain.
Arguments IDone {V}.
Arguments IValue {V} v.
Arguments IAgain {V}.

Section IPLDResolver.
Context `{C : Collaborators}.

(** ** The resolver instance *)

Record world := mkWorld {
  resolvers : gmap Z Format;
  bs : Store;
  trace : list event
}.

Definition set_resolvers (f : gmap Z Format -> gmap Z Format) (w : world) : world :=
  {| resolvers := f (resolvers w); bs := bs w; trace := trace w |}.

Definition record (ev : event) (w : world) : world :=
  {| resolvers := resolvers w; bs := bs w; trace := trace w ++ [ev] |}.

Definition log (ev : event) : M world unit := modify (record ev).

(** [promisify(this.bs.get.bind(this.bs))(cid)] *)
Definition this_bs_get (c : CID) : M world Block :=
  log (EvGet c) ;;
  let* w := get_state in
  lift_result (bs_get c (bs w)).

Definition run_store {A} (op : Store -> result A * Store) : M world A :=
  fun w =>
    let '(r, s') := op (bs w) in
    (r, {| resolvers := resolvers w; bs := s'; trace := trace w |}).

Definition this_bs_put (b : Block) : M world unit :=
  log (EvPut b) ;; run_store (bs_put b).

Definition this_bs_delete (c : CID) : M world unit :=
  log (EvDelete c) ;; run_store (bs_delete c).

(** [this.loadFormat], as the constructor sets it. *)
Definition this_loadFormat (codec : option Z) : M world Format :=
  log (EvLoad codec) ;;
  match options_loadFormat with
  | None => throw (NoResolverFound codec)
  | Some load => lift_result (load codec)
  end.

(** The object literal [{ resolver: format.resolver, util: format.util }]
    of [addFormat]: it has no [defaultHashAlg]. *)
Definition registry_entry (format : Format) : Format :=
  {| resolver := resolver format;
     util := util format;
     defaultHashAlg := VUndefined |}.

Definition addFormat (format : Format) : M world unit :=
  let* codec := lift_result (getCode (multicodec (resolver format))) in
  let* w := get_state in
  match resolvers w !! codec with
  | Some _ => throw (ResolverExists codec)
  | None => modify (set_resolvers <[codec := registry_entry format]>)
  end.

Definition removeFormat (codec : Z) : M world unit :=
  let* w := get_state in
  match resolvers w !! codec with
  | Some _ => modify (set_resolvers (delete codec))
  | None => ret tt
  end.

(** [this.resolvers[codec]] after the string case of [_getFormat]; an
    unknown constant name leaves [codec] undefined ([None]). *)
Definition codec_number (codec : codec_arg) : option Z :=
  match codec with
  | CodecNum n => Some n
  | CodecName s => multicodec_const (constant_name s)
  end.

Definition _getFormat (codec : codec_arg) : M world Format :=
  let codec := codec_number codec in
  let* w := get_state in
  match codec ≫= (fun c => resolvers w !! c) with
  | Some entry => ret entry
  | None =>
      let* format := this_loadFormat codec in
      addFormat format ;;
      ret format
  end.

(** *** Iterators

    The closure variables of an iterator are the first component of the
    state, the resolver instance the second. *)

Definition liftW {I A} (m : M world A) : M (I * world) A :=
  fun '(i, w) => let '(r, w') := m w in (r, (i, w')).

Definition get_it {I} : M (I * world) I :=
  fun s => (Ok (fst s), s).

Definition set_it {I} (f : I -> I) : M (I * world) unit :=
  fun '(i, w) => (Ok tt, (f i, w)).

(** ** [resolve] *)

Record resolve_state := mkResolveState {
  r_cid : option CID;
  r_path : string
}.

Definition resolve (cid path : jsval) : result resolve_state :=
  match cid with
  | VCID c =>
      match path with
      | VStr p => Ok {| r_cid := Some c; r_path := p |}
      | _ => Err (ArgError "`path` argument must be a string")
      end
  | _ => Err (ArgError "`cid` argument must be a CID")
  end.

(** Lines 115-117: [if (Object.keys(value).length === 1 && '/' in value)
    value = new CID(value['/'])]. *)
Definition convert_old_style_link (v : jsval) : result jsval :=
  match Object_keys v with
  | Err e => Err e
  | Ok keys =>
      if (List.length keys =? 1)%nat then
        match slash_in v with
        | Err e => Err e
        | Ok true =>
            match CID_new (get_slash v) with
            | Err e => Err e
            | Ok c => Ok (VCID c)
            end
        | Ok false => Ok v
        end
      else Ok v
  end.

Definition resolve_next : M (resolve_state * world) (iter_result Step) :=
  let* st := get_it in
  match r_cid st with
  | None => ret IDone
  | Some cid =>
      let* format := liftW (_getFormat (CodecName (cid_codec cid))) in
      let* block := liftW (this_bs_get cid) in
      let* result := lift_result
        (resolve_in_node (resolver format) (block_data block) (r_path st)) in
      set_it (fun st =>
        {| r_cid := r_cid st; r_path := remainderPath result |}) ;;
      let* value := lift_result (convert_old_style_link (value result)) in
      set_it (fun st =>
        {| r_cid := match value with VCID c => Some c | _ => None end;
           r_path := r_path st |}) ;;
      ret (IValue {| remainderPath := remainderPath result; value := value |})
  end.

(** ** [put] *)

Definition field (k : string) (o : list (string * jsval)) : jsval :=
  default VUndefined (assoc k o).

Fixpoint set_field (k : string) (v : jsval) (o : list (string * jsval))
  : list (string * jsval) :=
  match o with
  | [] => [(k, v)]
  | (k', v') :: rest =>
      if String.eqb k k' then (k, v) :: rest else (k', v') :: set_field k v rest
  end.

(** [mergeOptions(defaults, user)] of merge-options 1.0 on flat option
    objects: an [undefined] argument is skipped, any other argument that
    is not a plain object is refused, and every own key of [user]
    replaces or extends the defaults. *)
Definition mergeOptions (defaults : list (string * jsval)) (user : jsval)
  : result (list (string * jsval)) :=
  match user with
  | VUndefined => Ok defaults
  | VObj fields =>
      Ok (fold_left (fun acc kv => set_field (fst kv) (snd kv) acc) fields defaults)
  | _ => Err (TypeError "not an Option Object")
  end.

Definition _store (cid : CID) (node : jsval) : M world unit :=
  let* format := _getFormat (CodecName (cid_codec cid)) in
  let* serialized := lift_result (serialize (util format) node) in
  this_bs_put {| block_data := serialized; block_cid := cid |}.

Record put_state := mkPutState {
  p_nodes : list jsval;
  p_format : Z;
  p_userOptions : jsval;
  p_options : option (list (string * jsval));
  p_formatImpl : option Format
}.

(** [nodes] is an array of nodes, which passes the checks of lines
    168-171; [format] and [userOptions] are whatever the caller gave. *)
Definition put (nodes : list jsval) (format userOptions : jsval)
  : result put_state :=
  match format with
  | VUndefined => Err (ArgError "`put` requires a format")
  | VNum n =>
      Ok {| p_nodes := nodes; p_format := n; p_userOptions := userOptions;
            p_options := None; p_formatImpl := None |}
  | _ => Err (ArgError "`format` parameter must be number (multicodec)")
  end.

Definition set_nodes (nodes : list jsval) (st : put_state) : put_state :=
  {| p_nodes := nodes; p_format := p_format st;
     p_userOptions := p_userOptions st; p_options := p_options st;
     p_formatImpl := p_formatImpl st |}.

Definition set_formatImpl (formatImpl : Format) (st : put_state) : put_state :=
  {| p_nodes := p_nodes st; p_format := p_format st;
     p_userOptions := p_userOptions st; p_options := p_options st;
     p_formatImpl := Some formatImpl |}.

Definition set_options (options : list (string * jsval)) (st : put_state)
  : put_state :=
  {| p_nodes := p_nodes st; p_format := p_format st;
     p_userOptions := p_userOptions st; p_options := Some options;
     p_formatImpl := p_formatImpl st |}.

Definition defaultOptions (formatImpl : Format) : list (string * jsval) :=
  [("hashAlg", defaultHashAlg formatImpl);
   ("cidVersion", VNum 1);
   ("onlyHash", VBool false)].

(** Lines 187-195, run when [options === undefined]. *)
Definition put_load_options : M (put_state * world) unit :=
  let* st := get_it in
  let* formatImpl := liftW (_getFormat (CodecNum (p_format st))) in
  set_it (set_formatImpl formatImpl) ;;
  let* options := lift_result
    (mergeOptions (defaultOptions formatImpl) (p_userOptions st)) in
  set_it (set_options options).

Definition cidOptions_of (options : list (string * jsval)) : CidOptions :=
  {| co_version := field "cidVersion" options;
     co_hashAlg := field "hashAlg" options;
     co_onlyHash := field "onlyHash" options |}.

(** One turn of the generator's [for await] loop. *)
Definition put_next : M (put_state * world) (iter_result CID) :=
  let* st := get_it in
  match p_nodes st with
  | [] => ret IDone
  | node :: rest =>
      set_it (set_nodes rest) ;;
      match p_options st with
      | None => put_load_options
      | Some _ => ret tt
      end ;;
      let* st := get_it in
      match p_options st, p_formatImpl st with
      | Some options, Some formatImpl =>
          let* cid := lift_result
            (cid_of_node (util formatImpl) node (cidOptions_of options)) in
          (if truthy (field "onlyHash" options) then ret tt
           else liftW (_store cid node)) ;;
          ret (IValue cid)
      | _, _ => throw (TypeError "Cannot read property of undefined")
      end
  end.

(** ** [remove] *)

(** [cids] is an array of CIDs, which passes the checks of lines
    223-226.  The iterator keeps no copy: its state is the caller's
    array, which [next] consumes from the front. *)
Definition remove (cids : list CID) : list CID := cids.

Definition remove_next : M (list CID * world) (iter_result CID) :=
  let* cids := get_it in
  match cids with
  | [] => ret IDone
  | cid :: rest =>
      set_it (fun _ => rest) ;;
      liftW (this_bs_delete cid) ;;
      ret (IValue cid)
  end.

(** ** [tree] *)

Record tree_state := mkTreeState {
  t_cid : option CID;
  t_treePaths : list string;
  t_block : option Block;
  t_queue : list (CID * string);
  t_basePath : option string
}.

(** The closure variables [next] only reads. *)
Record tree_closure := mkTreeClosure {
  t_offsetPath : jsval;
  t_options : list (string * jsval);
  t_init : tree_state
}.

Definition tree (cid : CID) (offsetPath userOptions : jsval)
  : result tree_closure :=
  let '(offsetPath, userOptions) :=
    if typeof_is_object offsetPath then (VUndefined, offsetPath)
    else (offsetPath, userOptions) in
  let offsetPath := if truthy offsetPath then offsetPath else VStr "" in
  match mergeOptions [("recursive", VBool false)] userOptions with
  | Err e => Err e
  | Ok options =>
      Ok {| t_offsetPath := offsetPath;
            t_options := options;
            t_init := {| t_cid := Some cid; t_treePaths := [];
                         t_block := None; t_queue := [(cid, "")];
                         t_basePath := None |} |}
  end.

Definition _maybeCID (link : jsval) : result (option CID) :=
  match link with
  | VCID c => Ok (Some c)
  | _ =>
      if truthy link then
        match get_slash link with
        | VUndefined => Ok None
        | x =>
            match CID_new x with
            | Ok c => Ok (Some c)
            | Err e => Err e
            end
        end
      else Ok None
  end.

Definition maybeRecurse (block : option Block) (treePath : option string)
  : M world (option CID) :=
  match block with
  | None => throw (TypeError "Cannot read property 'cid' of undefined")
  | Some block =>
      let* format := _getFormat (CodecName (cid_codec (block_cid block))) in
      let* link := lift_result
        (isLink (resolver format) (block_data block) treePath) in
      if truthy link then lift_result (_maybeCID link) else ret None
  end.

(** String conversion of an operand of [+] that may be [undefined]. *)
Definition str_of (o : option string) : string := default "undefined" o.

(** [s.slice(n)] *)
Fixpoint slice_from (n : nat) (s : string) : string :=
  match n, s with
  | O, _ => s
  | S n', String _ rest => slice_from n' rest
  | S _, EmptyString => EmptyString
  end.

(** Lines 324-335.  An [offsetPath] that is not a string has no
    [length], and the comparison with [undefined] is false. *)
Definition tree_emit (offsetPath : jsval) (fullPath : string)
  : iter_result string :=
  match offsetPath with
  | VStr off =>
      if String.prefix off fullPath
         && (String.length off <? String.length fullPath)%nat
      then
        IValue (if (0 <? String.length off)%nat
                then slice_from (String.length off + 1) fullPath
                else fullPath)
      else IAgain
  | _ => IAgain
  end.

Definition tree_refill : M (tree_state * world) unit :=
  let* st := get_it in
  match t_treePaths st, t_queue st with
  | [], (cid, basePath) :: queue =>
      set_it (fun st =>
        {| t_cid := Some cid; t_treePaths := t_treePaths st;
           t_block := t_block st; t_queue := queue;
           t_basePath := Some basePath |}) ;;
      let* format := liftW (_getFormat (CodecName (cid_codec cid))) in
      let* block := liftW (this_bs_get cid) in
      set_it (fun st =>
        {| t_cid := t_cid st; t_treePaths := t_treePaths st;
           t_block := Some block; t_queue := t_queue st;
           t_basePath := t_basePath st |}) ;;
      let* paths := lift_result
        (tree_of_node (resolver format) (block_data block)) in
      set_it (fun st =>
        {| t_cid := t_cid st; t_treePaths := t_treePaths st ++ paths;
           t_block := t_block st; t_queue := t_queue st;
           t_basePath := t_basePath st |})
  | _, _ => ret tt
  end.

Definition tree_follow (treePath : option string) (fullPath : string)
  : M (tree_state * world) unit :=
  let* st := get_it in
  let* cid := liftW (maybeRecurse (t_block st) treePath) in
  set_it (fun st =>
    {| t_cid := cid; t_treePaths := t_treePaths st;
       t_block := t_block st;
       t_queue := match cid with
                  | Some c => t_queue st ++ [(c, fullPath ++ "/")]
                  | None => t_queue st
                  end;
       t_basePath := t_basePath st |}).

(** Lines 301-320: the next candidate, [basePath + treePath], once the
    buffer has been refilled if it was empty and the link behind the
    segment has been queued if recursion is wanted.  [shift] of an empty
    buffer is [undefined]. *)
Definition tree_candidate (options : list (string * jsval))
  : M (tree_state * world) string :=
  tree_refill ;;
  let* st := get_it in
  let treePath := head (t_treePaths st) in
  set_it (fun st =>
    {| t_cid := t_cid st; t_treePaths := tail (t_treePaths st);
       t_block := t_block st; t_queue := t_queue st;
       t_basePath := t_basePath st |}) ;;
  let fullPath := str_of (t_basePath st) ++ str_of treePath in
  (if truthy (field "recursive" options)
   then tree_follow treePath fullPath
   else ret tt) ;;
  ret fullPath.

Definition tree_next (offsetPath : jsval) (options : list (string * jsval))
  : M (tree_state * world) (iter_result string) :=
  let* st := get_it in
  match t_treePaths st, t_queue st with
  | [], [] => ret IDone
  | _, _ =>
      let* fullPath := tree_candidate options in
      ret (tree_emit offsetPath fullPath)
  end.

(** ** The constructor

    [options] is [IPLDResolver.defaultOptions] merged with the caller's:
    [blockService] as given ([None] when missing or falsy), [formats] the
    caller's array when there is one and [defaultFormats] (dag-cbor,
    dag-pb and raw, three packages outside the repository) otherwise.
    [loadFormat] is [options_loadFormat] of the collaborators.  A throw
    leaves no instance behind. *)
Fixpoint addFormats (formats : list Format) : M world unit :=
  match formats with
  | [] => ret tt
  | format :: rest => addFormat format ;; addFormats rest
  end.

Definition constructor (defaultFormats : list Format)
    (blockService : option Store) (formats : option (list Format))
  : result world :=
  match blockService with
  | None => Err (ArgError "Missing blockservice")
  | Some store =>
      match addFormats (default defaultFormats formats)
                       {| resolvers := ∅; bs := store; trace := [] |} with
      | (Ok _, w) => Ok w
      | (Err e, _) => Err e
      end
  end.

(** ** [get] *)

Definition _deserialize (block : Block) : M world jsval :=
  let* format := _getFormat (CodecName (cid_codec (block_cid block))) in
  lift_result (deserialize (util format) (block_data block)).

(** [cids] is an array of CIDs, which passes the checks of lines
    139-142; the generator walks it front to back. *)
Definition get (cids : list CID) : list CID := cids.

(** One turn of the generator's [for await] loop. *)
Definition get_next : M (list CID * world) (iter_result jsval) :=
  let* cids := get_it in
  match cids with
  | [] => ret IDone
  | cid :: rest =>
      set_it (fun _ => rest) ;;
      let* block := liftW (this_bs_get cid) in
      let* format := liftW
        (_getFormat (CodecName (cid_codec (block_cid block)))) in
      let* node := lift_result (deserialize (util format) (block_data block)) in
      ret (IValue node)
  end.

(** ** Vocabulary of the properties *)

(** Nothing was asked of the block service between [w] and [w']: its
    state is the same and the trace has no new call to it. *)
Definition untouched (w w' : world) : Prop :=
  bs w' = bs w /\ store_calls (trace w') = store_calls (trace w).

(** The writer runs, or will run, with a truthy [onlyHash]. *)
Definition hash_only (st : put_state) : Prop :=
  match p_options st with
  | Some options => truthy (field "onlyHash" options) = true
  | None =>
      exists fields v,
        p_userOptions st = VObj fields
        /\ NoDup (map fst fields)
        /\ assoc "onlyHash" fields = Some v
        /\ truthy v = true
  end.

(** Two callbacks of a codec's [resolve] that differ at most in how a
    link is encoded: the left one may hand out the old style mapping
    where the right one hands out the CID it stands for. *)
Definition same_link (a b : result Step) : Prop :=
  match a, b with
  | Ok sa, Ok sb =>
      remainderPath sa = remainderPath sb
      /\ (value sa = value sb
          \/ exists x k, value sa = VObj [("/", x)]
                         /\ CID_new x = Ok k /\ value sb = VCID k)
  | Err ea, Err eb => ea = eb
  | _, _ => False
  end.

Definition same_links (fa fb : Format) : Prop :=
  forall data path,
    same_link (resolve_in_node (resolver fa) data path)
              (resolve_in_node (resolver fb) data path).

(** Two resolvers over the same store, with the same history, whose
    formats differ at most in how their [resolve] encodes links. *)
Definition alike (wa wb : world) : Prop :=
  bs wa = bs wb
  /\ trace wa = trace wb
  /\ forall c, match resolvers wa !! c, resolvers wb !! c with
               | Some fa, Some fb => same_links fa fb
               | None, None => True
               | _, _ => False
               end.

(** The claim's reading of what is emitted: the full path with the
    offset-path prefix stripped, and no more. *)
Definition strip_prefix (offsetPath fullPath : string) : string :=
  slice_from (String.length offsetPath) fullPath.

(** The calls in a trace that change the store. *)
Definition is_write (ev : event) : bool :=
  match ev with EvPut _ | EvDelete _ => true | _ => false end.

Definition writes (t : list event) : list event := List.filter is_write t.

(** Nothing was written between [w] and [w']. *)
Definition unwritten (w w' : world) : Prop :=
  bs w' = bs w /\ writes (trace w') = writes (trace w).

(** The CIDs among the values of a list of steps. *)
Definition cid_values (steps : list Step) : list CID :=
  omap (fun s => match value s with VCID c => Some c | _ => None end) steps.

(** What [tree] emits of a list of candidates, in order. *)
Definition emitted (offsetPath : jsval) (fullPaths : list string) : list string :=
  omap (fun p => match tree_emit offsetPath p with
                 | IValue s => Some s
                 | _ => None
                 end) fullPaths.

(** A computation that writes nothing, whatever state it starts in. *)
Definition quietW {A} (m : M world A) : Prop :=
  forall w, unwritten w (snd (m w)).

Definition quiet {I A} (m : M (I * world) A) : Prop :=
  forall s, unwritten (snd s) (snd (snd (m s))).

(** The CIDs of the blocks handed to [bs.put], in the order of the
    calls. *)
Definition put_cids (t : list event) : list CID :=
  omap (fun ev => match ev with EvPut b => Some (block_cid b) | _ => None end) t.

(** The writer runs, or will run, without a truthy [onlyHash]: the
    merged options have it falsy, or, before the first turn, the merge
    of line 194 is bound to give options that have it falsy, whatever
    format the lookup returns (no options at all, options without the
    key, or the key with [false], [0], [null], [undefined] or the empty
    string). *)
Definition writing (st : put_state) : Prop :=
  match p_options st with
  | Some options => truthy (field "onlyHash" options) = false
  | None =>
      forall formatImpl options,
        mergeOptions (defaultOptions formatImpl) (p_userOptions st) = Ok options ->
        truthy (field "onlyHash" options) = false
  end.

(** Fetching and decoding the blocks of [cids] one after the other. *)
Fixpoint read_in_order (cids : list CID) : M world (list jsval) :=
  match cids with
  | [] => ret []
  | cid :: rest =>
      let* block := this_bs_get cid in
      let* node := _deserialize block in
      let* nodes := read_in_order rest in
      ret (node :: nodes)
  end.

(** Deleting the blocks of [cids] one after the other. *)
Fixpoint delete_in_order (cids : list CID) : M world unit :=
  match cids with
  | [] => ret tt
  | cid :: rest => this_bs_delete cid ;; delete_in_order rest
  end.

End IPLDResolver.

Arguments addFormat : simpl never.
Arguments removeFormat : simpl never.
Arguments _getFormat : simpl never.
Arguments this_bs_get : simpl never.
Arguments this_bs_put : simpl never.
Arguments this_bs_delete : simpl never.
Arguments this_loadFormat : simpl never.
Arguments _store : simpl never.
Arguments resolve_next : simpl never.
Arguments put_load_options : simpl never.
Arguments put_next : simpl never.
Arguments remove_next : simpl never.
Arguments maybeRecurse : simpl never.
Arguments tree_refill : simpl never.
Arguments tree_follow : simpl never.
Arguments tree_candidate : simpl never.
Arguments tree_next : simpl never.
Arguments _deserialize : simpl never.
Arguments get_next : simpl never.

(** ** Consuming an iterator *)

Inductive ending :=
  | Finished
  | Failed (e : error)
  | Pending.

Record run (S V : Type) := mkRun {
  yielded : list V;
  ended : ending;
  final : S
}.
Arguments mkRun {S V}.
Arguments yielded {S V}.
Arguments ended {S V}.
Arguments final {S V}.

(** Modelled from the spec: [fancyIterator], [extendIterator] and the
    [all] they attach, of [./util], which is not among the sources.  The
    sequence is pull-driven: each item is one call of [next]; the first
    failure terminates the sequence and is surfaced to the consumer, the
    items emitted before it stay valid.  [fuel] bounds the number of
    calls; [Pending] is a consumer that stopped pulling. *)
Fixpoint consume {S V} (fuel : nat) (next : M S (iter_result V)) (s : S)
  : run S V :=
  match fuel with
  | O => mkRun [] Pending s
  | Datatypes.S fuel' =>
      match next s with
      | (Err e, s') => mkRun [] (Failed e) s'
      | (Ok IDone, s') => mkRun [] Finished s'
      | (Ok IAgain, s') => consume fuel' next s'
      | (Ok (IValue v), s') =>
          let r := consume fuel' next s' in
          mkRun (v :: yielded r) (ended r) (final r)
      end
  end.

(** ** An in-memory instance

    A block service keeping its blocks in a list, a [CID] constructor
    reading the multihash of a dag-cbor CID from a non-empty string, the
    multicodec table for the codecs of [IPLDResolver.defaultOptions],
    and a toy dag-cbor format.  The examples and counterexamples below
    run the resolver on it. *)
Module Memory.

Definition mem_get (c : CID) (s : list Block) : result Block :=
  match List.find (fun b => bool_decide (block_cid b = c)) s with
  | Some b => Ok b
  | None => Err (ExtError "not found")
  end.

Definition mem_put (b : Block) (s : list Block) : result unit * list Block :=
  (Ok tt, b :: s).

Definition mem_delete (c : CID) (s : list Block) : result unit * list Block :=
  match mem_get c s with
  | Ok _ => (Ok tt, List.filter (fun b => negb (bool_decide (block_cid b = c))) s)
  | Err e => (Err e, s)
  end.

Definition mem_CID_new (x : jsval) : result CID :=
  match x with
  | VCID c => Ok c
  | VStr (String a rest) => Ok (mkCID 1 "dag-cbor" (String a rest))
  | _ => Err InvalidCID
  end.

Definition mem_getCode (name : string) : result Z :=
  if String.eqb name "dag-cbor" then Ok 113
  else if String.eqb name "dag-pb" then Ok 112
  else if String.eqb name "raw" then Ok 85
  else Err (CodecNotFound name).

Definition mem_const (name : string) : option Z :=
  if String.eqb name "DAG_CBOR" then Some 113
  else if String.eqb name "DAG_PB" then Some 112
  else if String.eqb name "RAW" then Some 85
  else None.

(** A resolver constructed without [loadFormat]. *)
Definition static : Collaborators :=
  {| Store := list Block;
     bs_get := mem_get;
     bs_put := mem_put;
     bs_delete := mem_delete;
     CID_new := mem_CID_new;
     getCode := mem_getCode;
     multicodec_const := mem_const;
     options_loadFormat := None |}.

(** A toy dag-cbor codec.  The block ["root"] is a map whose field [a]
    is an old style link, [b] a native link to the same node, [n] is
    [null] and [c] is the string ["x"]; every other block is a leaf
    holding its own bytes.  The CID the codec computes records the hash
    algorithm it was asked to use. *)
Definition leaf : CID := mkCID 1 "dag-cbor" "leaf".

Definition cbor_resolve (data : bytes) (path : string) : result Step :=
  if String.eqb data "root" then
    if String.eqb path "a" then
      Ok {| remainderPath := ""; value := VObj [("/", VStr "leaf")] |}
    else if String.eqb path "b" then
      Ok {| remainderPath := ""; value := VCID leaf |}
    else if String.eqb path "n" then
      Ok {| remainderPath := ""; value := VNull |}
    else if String.eqb path "c" then
      Ok {| remainderPath := ""; value := VStr "x" |}
    else Err (ExtError "path not available at root")
  else Ok {| remainderPath := path; value := VStr data |}.

Definition cbor_tree (data : bytes) : result (list string) :=
  if String.eqb data "root" then Ok ["a"; "a/b"; "c"] else Ok [].

Definition cbor_isLink (data : bytes) (path : option string) : result jsval :=
  Ok (VBool false).

Definition hash_name (hashAlg : jsval) : string :=
  match hashAlg with
  | VNum 18 => "sha2-256"
  | VUndefined => "undefined"
  | _ => "other"
  end.

Definition cbor_cid (node : jsval) (o : CidOptions) : result CID :=
  match node with
  | VStr s => Ok (mkCID 1 "dag-cbor" (hash_name (co_hashAlg o) ++ ":" ++ s))
  | _ => Err (ExtError "cannot hash")
  end.

Definition cbor_serialize (node : jsval) : result bytes :=
  match node with
  | VStr s => Ok s
  | _ => Err (ExtError "cannot serialize")
  end.

Definition dagCbor : Format :=
  {| resolver := {| multicodec := "dag-cbor";
                    resolve_in_node := cbor_resolve;
                    tree_of_node := cbor_tree;
                    isLink := cbor_isLink |};
     util := {| serialize := cbor_serialize;
                deserialize := fun data => Ok (VStr data);
                cid_of_node := cbor_cid |};
     defaultHashAlg := VNum 18 |}.

(** The same codec once it hands out native links: the field [a] of the
    root block comes back as the CID of the leaf. *)
Definition cbor_resolve_native (data : bytes) (path : string) : result Step :=
  if String.eqb data "root" && String.eqb path "a" then
    Ok {| remainderPath := ""; value := VCID leaf |}
  else cbor_resolve data path.

Definition dagCborNative : Format :=
  {| resolver := {| multicodec := "dag-cbor";
                    resolve_in_node := cbor_resolve_native;
                    tree_of_node := cbor_tree;
                    isLink := cbor_isLink |};
     util := util dagCbor;
     defaultHashAlg := VNum 18 |}.

(** A resolver constructed with a [loadFormat] that knows dag-cbor. *)
Definition loading : Collaborators :=
  {| Store := list Block;
     bs_get := mem_get;
     bs_put := mem_put;
     bs_delete := mem_delete;
     CID_new := mem_CID_new;
     getCode := mem_getCode;
     multicodec_const := mem_const;
     options_loadFormat := Some (fun codec =>
       match codec with
       | Some 113 => Ok dagCbor
       | _ => Err (ExtError "cannot load")
       end) |}.

Definition root : CID := mkCID 1 "dag-cbor" "root".

Definition blocks : list Block :=
  [ {| block_data := "root"; block_cid := root |};
    {| block_data := "leaf"; block_cid := leaf |} ].

(** A resolver with no format registered yet. *)
Definition empty `{C : Collaborators} (s : Store) : world :=
  {| resolvers := ∅; bs := s; trace := [] |}.

(** [new IPLDResolver({ blockService, formats: [dagCbor] })] *)
Definition with_cbor `{C : Collaborators} (s : Store) : world :=
  snd (addFormat dagCbor (empty s)).

Definition registered : @world static := with_cbor (C:=static) blocks.

Definition registered_native : @world static :=
  snd (addFormat (C:=static) dagCborNative (empty (C:=static) blocks)).

Definition unloaded : @world loading := empty (C:=loading) blocks.

(** The iterator of [tree] below ["a"] after its first call: the root
    block is loaded and two segments are left in the buffer. *)
Definition below_a : tree_state :=
  {| t_cid := Some root;
     t_treePaths := ["a/b"; "c"];
     t_block := Some {| block_data := "root"; block_cid := root |};
     t_queue := [];
     t_basePath := Some "" |}.

(** A CID no block is stored under. *)
Definition gone : CID := mkCID 1 "dag-cbor" "gone".

(** A codec whose every field is an old style link that [new CID]
    refuses. *)
Definition dagCborBroken : Format :=
  {| resolver := {| multicodec := "dag-cbor";
                    resolve_in_node := fun _ _ =>
                      Ok {| remainderPath := ""; value := VObj [("/", VNum 5)] |};
                    tree_of_node := cbor_tree;
                    isLink := cbor_isLink |};
     util := util dagCbor;
     defaultHashAlg := VNum 18 |}.

Definition registered_broken : @world static :=
  snd (addFormat (C:=static) dagCborBroken (empty (C:=static) blocks)).

(** A codec for which the root block has the single path [a], an old
    style link to the leaf, and every other block the two paths [x] and
    [y], neither of them a link. *)
Definition linked_tree (data : bytes) : result (list string) :=
  if String.eqb data "root" then Ok ["a"] else Ok ["x"; "y"].

Definition linked_isLink (data : bytes) (path : option string) : result jsval :=
  if String.eqb data "root" then Ok (VObj [("/", VStr "leaf")])
  else Ok (VBool false).

Definition dagCborLinked : Format :=
  {| resolver := {| multicodec := "dag-cbor";
                    resolve_in_node := cbor_resolve;
                    tree_of_node := linked_tree;
                    isLink := linked_isLink |};
     util := util dagCbor;
     defaultHashAlg := VNum 18 |}.

Definition registered_linked : @world static :=
  snd (addFormat (C:=static) dagCborLinked (empty (C:=static) blocks)).

(** A resolver whose [loadFormat] answers the request for dag-pb (112)
    with the dag-cbor format. *)
Definition misloading : Collaborators :=
  {| Store := list Block;
     bs_get := mem_get;
     bs_put := mem_put;
     bs_delete := mem_delete;
     CID_new := mem_CID_new;
     getCode := mem_getCode;
     multicodec_const := mem_const;
     options_loadFormat := Some (fun codec =>
       match codec with
       | Some 112 => Ok dagCbor
       | _ => Err (ExtError "cannot load")
       end) |}.

(** A format registered as raw whose CIDs name dag-cbor, and whose
    [serialize] writes other bytes than dag-cbor's. *)
Definition rawAsCbor : Format :=
  {| resolver := {| multicodec := "raw";
                    resolve_in_node := cbor_resolve;
                    tree_of_node := cbor_tree;
                    isLink := cbor_isLink |};
     util := {| serialize := fun _ => Ok "raw bytes";
                deserialize := fun data => Ok (VStr data);
                cid_of_node := cbor_cid |};
     defaultHashAlg := VNum 18 |}.

Definition registered_two : @world static :=
  snd (addFormat (C:=static) rawAsCbor registered).

(** A CID whose codec, dag-pb, no format of these resolvers covers. *)
Definition foreign : CID := mkCID 1 "dag-pb" "p".

End Memory.

(** * Properties *)

Ltac unfold_monad :=
  unfold bind, ret, throw, lift_result, get_state, modify, liftW, get_it,
    set_it, log, run_store in *.

(** The first pull of a run is one call of [next]: two states on which
    that call settles alike give the same run. *)
Lemma consume_same_call {S V} (fuel : nat) (next : M S (iter_result V))
    (s : S) (o : result (iter_result V) * S) :
  next s = o ->
  consume (Datatypes.S fuel) next s
  = match o with
    | (Err e, s') => mkRun [] (Failed e) s'
    | (Ok IDone, s') => mkRun [] Finished s'
    | (Ok IAgain, s') => consume fuel next s'
    | (Ok (IValue v), s') =>
        mkRun (v :: yielded (consume fuel next s'))
              (ended (consume fuel next s')) (final (consume fuel next s'))
    end.
Proof. intros <-. reflexivity. Qed.

Section Registry.
Context `{C : Collaborators}.

Lemma addFormat_fresh (w : world) (format : Format) (codec : Z) :
  getCode (multicodec (resolver format)) = Ok codec ->
  resolvers w !! codec = None ->
  addFormat format w
  = (Ok tt, set_resolvers <[codec := registry_entry format]> w).
Proof.
  intros Hcode Hfree. unfold addFormat. unfold_monad.
  rewrite Hcode. cbn. now rewrite Hfree.
Qed.

Lemma addFormat_taken (w : world) (format entry : Format) (codec : Z) :
  getCode (multicodec (resolver format)) = Ok codec ->
  resolvers w !! codec = Some entry ->
  addFormat format w = (Err (ResolverExists codec), w).
Proof.
  intros Hcode Htaken. unfold addFormat. unfold_monad.
  rewrite Hcode. cbn. now rewrite Htaken.
Qed.

(** C5. In a registry where a codec is already registered, [addFormat]
    of a format with that codec throws "Resolver already exists" and
    leaves the resolver as it was: the entry of that codec, and of every
    other codec, is the one from before the call. *)
Theorem addFormat_duplicate (w : world) (format entry : Format) (codec : Z) :
  getCode (multicodec (resolver format)) = Ok codec ->
  resolvers w !! codec = Some entry ->
  addFormat format w = (Err (ResolverExists codec), w)
  /\ resolvers (snd (addFormat format w)) !! codec = Some entry
  /\ forall c, resolvers (snd (addFormat format w)) !! c = resolvers w !! c.
Proof.
  intros Hcode Htaken.
  rewrite (addFormat_taken w format entry codec Hcode Htaken). cbn. auto.
Qed.

(** Two calls in a row: the second fails and the first registration is
    what the registry holds. *)
Corollary addFormat_twice (w w1 : world) (f1 f2 : Format) (codec : Z) :
  getCode (multicodec (resolver f1)) = Ok codec ->
  getCode (multicodec (resolver f2)) = Ok codec ->
  addFormat f1 w = (Ok tt, w1) ->
  addFormat f2 w1 = (Err (ResolverExists codec), w1)
  /\ resolvers w1 !! codec = Some (registry_entry f1).
Proof.
  intros H1 H2 Hfirst.
  assert (Hw1 : resolvers w1 !! codec = Some (registry_entry f1)).
  { destruct (resolvers w !! codec) as [e|] eqn:Hw.
    - rewrite (addFormat_taken w f1 e codec H1 Hw) in Hfirst. discriminate.
    - rewrite (addFormat_fresh w f1 codec H1 Hw) in Hfirst.
      injection Hfirst as <-. cbn. apply lookup_insert_eq. }
  split; [|exact Hw1].
  apply (addFormat_taken w1 f2 _ codec H2 Hw1).
Qed.

(** A hit: the stored entry is returned, the resolver and the trace are
    untouched, so the loader was not called. *)
Lemma _getFormat_registered (w : world) (codec : codec_arg) (c : Z) (entry : Format) :
  codec_number codec = Some c ->
  resolvers w !! c = Some entry ->
  _getFormat codec w = (Ok entry, w).
Proof.
  intros Hnum Hreg. unfold _getFormat. unfold_monad.
  rewrite Hnum. cbn. now rewrite Hreg.
Qed.

(** Two lookups in a row of a registered codec return the same entry,
    and the trace records no call of the loader. *)
Lemma _getFormat_repeated (w : world) (codec : codec_arg) (c : Z) (entry : Format) :
  codec_number codec = Some c ->
  resolvers w !! c = Some entry ->
  fst (_getFormat codec w) = Ok entry
  /\ fst (_getFormat codec (snd (_getFormat codec w))) = Ok entry
  /\ trace (snd (_getFormat codec (snd (_getFormat codec w)))) = trace w.
Proof.
  intros Hnum Hreg.
  pose proof (_getFormat_registered w codec c entry Hnum Hreg) as Hhit.
  rewrite Hhit. cbn. rewrite Hhit. auto.
Qed.

(** X6. A miss without [options.loadFormat]: "No resolver found". *)
Lemma _getFormat_no_loader (w : world) (codec : codec_arg) :
  options_loadFormat = None ->
  codec_number codec ≫= (fun c => resolvers w !! c) = None ->
  fst (_getFormat codec w) = Err (NoResolverFound (codec_number codec))
  /\ resolvers (snd (_getFormat codec w)) = resolvers w.
Proof.
  intros Hload Hmiss. unfold _getFormat, this_loadFormat. unfold_monad.
  rewrite Hmiss, Hload. cbn. auto.
Qed.

(** A miss with a loader that succeeds: the loader's own object is
    returned, and what is registered is its [registry_entry]. *)
Lemma _getFormat_loaded (w : world) (codec : codec_arg) load (format : Format) (c : Z) :
  options_loadFormat = Some load ->
  codec_number codec ≫= (fun c => resolvers w !! c) = None ->
  load (codec_number codec) = Ok format ->
  getCode (multicodec (resolver format)) = Ok c ->
  resolvers w !! c = None ->
  fst (_getFormat codec w) = Ok format
  /\ resolvers (snd (_getFormat codec w)) !! c = Some (registry_entry format)
  /\ trace (snd (_getFormat codec w)) = (trace w ++ [EvLoad (codec_number codec)])%list.
Proof.
  intros Hload Hmiss Hok Hcode Hfree.
  unfold _getFormat, this_loadFormat, addFormat. unfold_monad.
  rewrite Hmiss, Hload. cbn. rewrite Hok, Hcode. cbn. rewrite Hfree. cbn.
  split; [reflexivity|]. split; [apply lookup_insert_eq|reflexivity].
Qed.

End Registry.

Section Resolve.
Context `{C : Collaborators}.

Lemma this_bs_get_eq (c : CID) (w : world) :
  this_bs_get c w = (bs_get c (bs w), record (EvGet c) w).
Proof. reflexivity. Qed.

(** The entry checks of [resolve]: a CID and a string start the
    sequence at that CID and path, anything else is refused. *)
Lemma resolve_root (cid path : jsval) :
  match resolve cid path with
  | Ok st => exists c p, cid = VCID c /\ path = VStr p
                         /\ st = {| r_cid := Some c; r_path := p |}
  | Err e => isCID cid = false \/ forall p, path <> VStr p
  end.
Proof.
  destruct cid; cbn; auto.
  destruct path; cbn; eauto; right; intros p; discriminate.
Qed.

(** One call of [next], spelled out along its awaits. *)
Lemma resolve_next_eq (st : resolve_state) (w : world) (cid : CID) :
  r_cid st = Some cid ->
  resolve_next (st, w) =
  match _getFormat (CodecName (cid_codec cid)) w with
  | (Err e, w1) => (Err e, (st, w1))
  | (Ok format, w1) =>
      match bs_get cid (bs w1) with
      | Err e => (Err e, (st, record (EvGet cid) w1))
      | Ok block =>
          match resolve_in_node (resolver format) (block_data block) (r_path st) with
          | Err e => (Err e, (st, record (EvGet cid) w1))
          | Ok result =>
              match convert_old_style_link (value result) with
              | Err e =>
                  (Err e, ({| r_cid := Some cid; r_path := remainderPath result |},
                           record (EvGet cid) w1))
              | Ok v =>
                  (Ok (IValue {| remainderPath := remainderPath result; value := v |}),
                   ({| r_cid := match v with VCID c => Some c | _ => None end;
                       r_path := remainderPath result |},
                    record (EvGet cid) w1))
              end
          end
      end
  end.
Proof.
  intros Hcid. unfold resolve_next. unfold_monad. cbn. rewrite Hcid.
  destruct (_getFormat _ w) as [[format|e] w1]; [|reflexivity].
  rewrite this_bs_get_eq.
  destruct (bs_get cid (bs w1)) as [block|e]; [|reflexivity].
  destruct (resolve_in_node _ _ _) as [result|e]; [|reflexivity].
  cbn. rewrite ?Hcid. destruct (convert_old_style_link _) as [v|e]; reflexivity.
Qed.

Lemma resolve_next_done (st : resolve_state) (w : world) :
  r_cid st = None -> resolve_next (st, w) = (Ok IDone, (st, w)).
Proof. intros Hcid. unfold resolve_next. unfold_monad. cbn. now rewrite Hcid. Qed.

Lemma convert_old_style_link_legacy (x : jsval) (k : CID) :
  CID_new x = Ok k ->
  convert_old_style_link (VObj [("/", x)]) = Ok (VCID k).
Proof. intros Hnew. unfold convert_old_style_link. cbn. now rewrite Hnew. Qed.

Lemma convert_old_style_link_native (k : CID) :
  convert_old_style_link (VCID k) = Ok (VCID k).
Proof. reflexivity. Qed.

(** An old style link never leaves [next] as it came in: the call emits
    a CID, or throws what [new CID] threw. *)
Lemma convert_old_style_link_shape (x v : jsval) :
  convert_old_style_link (VObj [("/", x)]) = Ok v ->
  exists k, CID_new x = Ok k /\ v = VCID k.
Proof.
  unfold convert_old_style_link. cbn.
  destruct (CID_new x) as [k|e]; [|discriminate].
  intros [= <-]. eauto.
Qed.

(** X12. An old style link whose content [new CID] refuses: the call throws
    what [new CID] threw, after the path has moved on. *)
Lemma resolve_old_style_link_invalid
    (st : resolve_state) (w w1 : world) (cid : CID) (format : Format)
    (block : Block) (x : jsval) (rest : string) (e : error) :
  r_cid st = Some cid ->
  _getFormat (CodecName (cid_codec cid)) w = (Ok format, w1) ->
  bs_get cid (bs w1) = Ok block ->
  CID_new x = Err e ->
  resolve_in_node (resolver format) (block_data block) (r_path st)
  = Ok {| remainderPath := rest; value := VObj [("/", x)] |} ->
  resolve_next (st, w)
  = (Err e, ({| r_cid := Some cid; r_path := rest |}, record (EvGet cid) w1)).
Proof.
  intros Hcid Hformat Hblock Hnew Hresolve.
  rewrite (resolve_next_eq st w cid Hcid), Hformat, Hblock, Hresolve. cbn.
  unfold convert_old_style_link. cbn. now rewrite Hnew.
Qed.


(** What the conversion does to a value that is [null]: it throws. *)
Lemma convert_old_style_link_null :
  exists msg, convert_old_style_link VNull = Err (TypeError msg).
Proof. eexists. reflexivity. Qed.

(** A string of one character has one key, and [in] refuses it. *)
Lemma convert_old_style_link_char (a : ascii) :
  exists msg, convert_old_style_link (VStr (String a "")) = Err (TypeError msg).
Proof. eexists. reflexivity. Qed.

(** Values the conversion hands back untouched. *)
Lemma convert_old_style_link_passes (v : jsval) :
  match v with
  | VBool _ | VNum _ | VCID _ | VArr _ => True
  | VStr s => String.length s <> 1%nat
  | VObj fields => map fst fields <> ["/"]
  | VUndefined | VNull => False
  end ->
  convert_old_style_link v = Ok v.
Proof.
  destruct v as [| |b|n|s|c|fields|items]; try tauto; try reflexivity.
  - intros Hlen. unfold convert_old_style_link. cbn.
    unfold index_keys. rewrite length_map, length_seq.
    destruct (String.length s =? 1)%nat eqn:E; [|reflexivity].
    apply Nat.eqb_eq in E. contradiction.
  - intros Hkeys. unfold convert_old_style_link.
    destruct fields as [|[k x] [|kv rest]]; try reflexivity.
    cbn -[String.eqb]. destruct (String.eqb "/" k) eqn:E.
    + apply String.eqb_eq in E. subst k. now contradiction Hkeys.
    + reflexivity.
  - intros _. unfold convert_old_style_link. cbn.
    destruct (_ =? 1)%nat; reflexivity.
Qed.



(** ** Whole sequences under the two encodings of a link *)

Lemma same_links_refl (f : Format) : same_links f f.
Proof.
  intros data path. unfold same_link.
  destruct (resolve_in_node _ data path); auto.
Qed.

Lemma same_links_entry (f : Format) : same_links (registry_entry f) f.
Proof. exact (same_links_refl f). Qed.

Lemma alike_record (ev : event) (wa wb : world) :
  alike wa wb -> alike (record ev wa) (record ev wb).
Proof.
  intros (Hbs & Htr & Hreg). repeat split; cbn; auto. now rewrite Htr.
Qed.

Lemma addFormat_alike (format : Format) (wa wb : world) :
  alike wa wb ->
  fst (addFormat format wa) = fst (addFormat format wb)
  /\ alike (snd (addFormat format wa)) (snd (addFormat format wb)).
Proof.
  intros (Hbs & Htr & Hreg). unfold addFormat. unfold_monad.
  destruct (getCode _) as [codec|e]; cbn; [|repeat split; auto].
  pose proof (Hreg codec) as Hc.
  destruct (resolvers wa !! codec) as [fa|], (resolvers wb !! codec) as [fb|];
    try contradiction; cbn.
  - repeat split; auto.
  - split; [reflexivity|]. repeat split; cbn; auto.
    intros c. destruct (decide (codec = c)) as [->|Hne].
    + rewrite !lookup_insert_eq. apply same_links_refl.
    + rewrite !lookup_insert_ne by exact Hne. apply Hreg.
Qed.

Lemma _getFormat_alike (codec : codec_arg) (wa wb : world) :
  alike wa wb ->
  match _getFormat codec wa, _getFormat codec wb with
  | (Ok fa, wa'), (Ok fb, wb') => same_links fa fb /\ alike wa' wb'
  | (Err ea, wa'), (Err eb, wb') => ea = eb /\ alike wa' wb'
  | _, _ => False
  end.
Proof.
  intros Halike. pose proof Halike as (Hbs & Htr & Hreg).
  unfold _getFormat, this_loadFormat. unfold_monad.
  destruct (codec_number codec) as [c|]; cbn.
  - pose proof (Hreg c) as Hc.
    destruct (resolvers wa !! c) as [fa|], (resolvers wb !! c) as [fb|];
      try contradiction; cbn; [auto|].
    pose proof (alike_record (EvLoad (Some c)) wa wb Halike) as Hlog.
    destruct options_loadFormat as [load|]; cbn; [|auto].
    destruct (load (Some c)) as [format|e]; cbn; [|auto].
    destruct (addFormat_alike format _ _ Hlog) as [Hres Hadd].
    destruct (addFormat format (record _ wa)) as [[[]|ea] wa'],
             (addFormat format (record _ wb)) as [[[]|eb] wb'];
      cbn in *; try discriminate.
    + split; [apply same_links_refl|exact Hadd].
    + injection Hres as ->. auto.
  - pose proof (alike_record (EvLoad None) wa wb Halike) as Hlog.
    destruct options_loadFormat as [load|]; cbn; [|auto].
    destruct (load None) as [format|e]; cbn; [|auto].
    destruct (addFormat_alike format _ _ Hlog) as [Hres Hadd].
    destruct (addFormat format (record _ wa)) as [[[]|ea] wa'],
             (addFormat format (record _ wb)) as [[[]|eb] wb'];
      cbn in *; try discriminate.
    + split; [apply same_links_refl|exact Hadd].
    + injection Hres as ->. auto.
Qed.

Lemma convert_same_link (sa sb : Step) :
  same_link (Ok sa) (Ok sb) ->
  convert_old_style_link (value sa) = convert_old_style_link (value sb).
Proof.
  intros [_ [Heq | (x & k & Ha & Hnew & Hb)]]; [now rewrite Heq|].
  rewrite Ha, Hb. apply (convert_old_style_link_legacy x k Hnew).
Qed.

(** One call of [next] on two resolvers that are alike: same outcome,
    same iterator state, and resolvers that are still alike. *)
Lemma resolve_next_alike (st : resolve_state) (wa wb : world) :
  alike wa wb ->
  fst (resolve_next (st, wa)) = fst (resolve_next (st, wb))
  /\ fst (snd (resolve_next (st, wa))) = fst (snd (resolve_next (st, wb)))
  /\ alike (snd (snd (resolve_next (st, wa)))) (snd (snd (resolve_next (st, wb)))).
Proof.
  intros Halike. destruct (r_cid st) as [cid|] eqn:Hcid.
  2: { rewrite !resolve_next_done by exact Hcid. auto. }
  rewrite !(resolve_next_eq st _ cid Hcid).
  pose proof (_getFormat_alike (CodecName (cid_codec cid)) wa wb Halike) as Hget.
  destruct (_getFormat _ wa) as [[fa|ea] wa'], (_getFormat _ wb) as [[fb|eb] wb'];
    try contradiction.
  2: { destruct Hget as [-> Hw]. auto. }
  destruct Hget as [Hlinks Hw].
  pose proof (alike_record (EvGet cid) wa' wb' Hw) as Hlog.
  destruct Hw as (Hbs & _). rewrite Hbs.
  destruct (bs_get cid (bs wb')) as [block|e]; [|auto].
  pose proof (Hlinks (block_data block) (r_path st)) as Hstep.
  destruct (resolve_in_node (resolver fa) _ _) as [sa|ea],
           (resolve_in_node (resolver fb) _ _) as [sb|eb];
    try contradiction.
  2: { cbn in Hstep. subst eb. auto. }
  rewrite (convert_same_link sa sb Hstep).
  destruct Hstep as [Hrem _]. rewrite Hrem.
  destruct (convert_old_style_link (value sb)) as [v|e]; auto.
Qed.

(** X13. The whole sequence: resolving the same path from the same root on
    two resolvers that are alike emits the same steps, ends the same
    way and follows the same links. *)
Theorem resolve_runs_alike (fuel : nat) (st : resolve_state) (wa wb : world) :
  alike wa wb ->
  yielded (consume fuel resolve_next (st, wa))
  = yielded (consume fuel resolve_next (st, wb))
  /\ ended (consume fuel resolve_next (st, wa))
     = ended (consume fuel resolve_next (st, wb))
  /\ fst (final (consume fuel resolve_next (st, wa)))
     = fst (final (consume fuel resolve_next (st, wb)))
  /\ alike (snd (final (consume fuel resolve_next (st, wa))))
           (snd (final (consume fuel resolve_next (st, wb)))).
Proof.
  revert st wa wb. induction fuel as [|fuel IH]; intros st wa wb Halike.
  { cbn. auto. }
  cbn [consume].
  destruct (resolve_next_alike st wa wb Halike) as (Hres & Hst & Hw).
  destruct (resolve_next (st, wa)) as [ra [sta wa']],
           (resolve_next (st, wb)) as [rb [stb wb']].
  cbn in Hres, Hst, Hw. subst rb stb.
  destruct ra as [[|step|]|e]; cbn [yielded ended final fst snd]; auto.
  - destruct (IH sta wa' wb' Hw) as (Hy & He & Hf & Ha).
    rewrite Hy, He, Hf. auto.
Qed.

End Resolve.

Section Put.
Context `{C : Collaborators}.

Lemma assoc_set_field_eq (k : string) (v : jsval) (o : list (string * jsval)) :
  assoc k (set_field k v o) = Some v.
Proof.
  induction o as [|[k' v'] o IH]; cbn -[String.eqb].
  - now rewrite String.eqb_refl.
  - destruct (String.eqb k k') eqn:E; cbn -[String.eqb]; rewrite ?String.eqb_refl, ?E; auto.
Qed.

Lemma assoc_set_field_ne (k k' : string) (v : jsval) (o : list (string * jsval)) :
  k <> k' -> assoc k (set_field k' v o) = assoc k o.
Proof.
  intros Hne. apply String.eqb_neq in Hne.
  induction o as [|[k2 v2] o IH]; cbn -[String.eqb].
  - now rewrite Hne.
  - destruct (String.eqb k' k2) eqn:E; cbn -[String.eqb].
    + apply String.eqb_eq in E. subst k2. now rewrite Hne.
    + destruct (String.eqb k k2); auto.
Qed.

Lemma assoc_merge_absent (k : string) (fields d : list (string * jsval)) :
  ~ In k (map fst fields) ->
  assoc k (fold_left (fun acc kv => set_field (fst kv) (snd kv) acc) fields d)
  = assoc k d.
Proof.
  revert d. induction fields as [|[k' v'] fields IH]; intros d Hout; [reflexivity|].
  cbn [fold_left fst snd]. rewrite IH.
  - apply assoc_set_field_ne. intros ->. apply Hout. now left.
  - intros Hin. apply Hout. now right.
Qed.

Lemma assoc_merge_present (k : string) (v : jsval) (fields d : list (string * jsval)) :
  NoDup (map fst fields) ->
  assoc k fields = Some v ->
  assoc k (fold_left (fun acc kv => set_field (fst kv) (snd kv) acc) fields d)
  = Some v.
Proof.
  revert d. induction fields as [|[k' v'] fields IH]; intros d Hnd Hk; [discriminate|].
  cbn [map fst] in Hnd. apply NoDup_cons in Hnd as [Hfresh Hnd].
  cbn -[String.eqb] in Hk. cbn [fold_left fst snd].
  destruct (String.eqb k k') eqn:E.
  - apply String.eqb_eq in E. subst k'. injection Hk as ->.
    rewrite assoc_merge_absent; [apply assoc_set_field_eq|].
    rewrite <- list_elem_of_In. exact Hfresh.
  - now apply IH.
Qed.

(** Whatever the defaults, a user's own truthy [onlyHash] survives the
    merge. *)
Lemma mergeOptions_onlyHash (d fields o : list (string * jsval)) (v : jsval) :
  NoDup (map fst fields) ->
  assoc "onlyHash" fields = Some v ->
  mergeOptions d (VObj fields) = Ok o ->
  field "onlyHash" o = v.
Proof.
  intros Hnd Hk [= <-]. unfold field.
  now rewrite (assoc_merge_present "onlyHash" v fields d Hnd Hk).
Qed.

Lemma untouched_refl (w : world) : untouched w w.
Proof. split; reflexivity. Qed.

Lemma untouched_trans (w1 w2 w3 : world) :
  untouched w1 w2 -> untouched w2 w3 -> untouched w1 w3.
Proof. intros [H1 H2] [H3 H4]. split; congruence. Qed.

Lemma addFormat_untouched (format : Format) (w : world) :
  untouched w (snd (addFormat format w)).
Proof.
  unfold addFormat. unfold_monad.
  destruct (getCode _) as [codec|e]; cbn; [|apply untouched_refl].
  destruct (resolvers w !! codec); cbn; split; reflexivity.
Qed.

(** Looking a format up, loading it if need be, asks nothing of the
    block service. *)
Lemma _getFormat_untouched (codec : codec_arg) (w : world) :
  untouched w (snd (_getFormat codec w)).
Proof.
  unfold _getFormat, this_loadFormat. unfold_monad.
  destruct (codec_number codec ≫= _); cbn; [apply untouched_refl|].
  assert (Hlog : untouched w (record (EvLoad (codec_number codec)) w)).
  { split; [reflexivity|]. cbn. unfold store_calls.
    rewrite List.filter_app. cbn. apply app_nil_r. }
  destruct options_loadFormat as [load|]; cbn; [|exact Hlog].
  destruct (load _) as [format|e]; cbn; [|exact Hlog].
  pose proof (addFormat_untouched format (record (EvLoad (codec_number codec)) w)) as Hadd.
  destruct (addFormat format _) as [[[]|e] w']; cbn in *;
    eapply untouched_trans; eauto.
Qed.

Lemma put_next_done (st : put_state) (w : world) :
  p_nodes st = [] -> put_next (st, w) = (Ok IDone, (st, w)).
Proof. intros Hn. unfold put_next. unfold_monad. cbn. now rewrite Hn. Qed.

(** A turn once the options are there. *)
Lemma put_next_loaded (st : put_state) (w : world) (node : jsval)
    (rest : list jsval) (options : list (string * jsval)) (formatImpl : Format) :
  p_nodes st = node :: rest ->
  p_options st = Some options ->
  p_formatImpl st = Some formatImpl ->
  put_next (st, w) =
  match cid_of_node (util formatImpl) node (cidOptions_of options) with
  | Err e => (Err e, (set_nodes rest st, w))
  | Ok cid =>
      if truthy (field "onlyHash" options)
      then (Ok (IValue cid), (set_nodes rest st, w))
      else match _store cid node w with
           | (Err e, w') => (Err e, (set_nodes rest st, w'))
           | (Ok _, w') => (Ok (IValue cid), (set_nodes rest st, w'))
           end
  end.
Proof.
  intros Hn Ho Hf. unfold put_next. unfold_monad. cbn. rewrite Hn, Ho. cbn.
  rewrite Ho, Hf.
  destruct (cid_of_node _ _ _) as [cid|e]; [|reflexivity].
  destruct (truthy _); [reflexivity|].
  destruct (_store cid node w) as [[[]|e] w']; reflexivity.
Qed.

(** The first turn: the format is looked up and the options are merged,
    then the turn goes on as any other. *)
Lemma put_next_first (st : put_state) (w : world) (node : jsval) (rest : list jsval) :
  p_nodes st = node :: rest ->
  p_options st = None ->
  put_next (st, w) =
  match _getFormat (CodecNum (p_format st)) w with
  | (Err e, w1) => (Err e, (set_nodes rest st, w1))
  | (Ok formatImpl, w1) =>
      match mergeOptions (defaultOptions formatImpl) (p_userOptions st) with
      | Err e => (Err e, (set_formatImpl formatImpl (set_nodes rest st), w1))
      | Ok options =>
          put_next (set_options options (set_formatImpl formatImpl st), w1)
      end
  end.
Proof.
  intros Hn Ho. unfold put_next at 1, put_load_options. unfold_monad. cbn.
  rewrite Hn, Ho. cbn.
  destruct (_getFormat _ w) as [[formatImpl|e] w1]; [|reflexivity]. cbn.
  destruct (mergeOptions _ _) as [options|e]; [|reflexivity]. cbn.
  rewrite (put_next_loaded (set_options options (set_formatImpl formatImpl st))
             w1 node rest options formatImpl) by (cbn; auto).
  destruct (cid_of_node _ _ _) as [cid|e]; [|reflexivity].
  destruct (truthy _); [reflexivity|].
  destruct (_store cid node w1) as [[[]|e] w']; reflexivity.
Qed.

(** [put] itself looks nothing up: the options are still to come. *)
Lemma put_lazy (nodes : list jsval) (format userOptions : jsval) (st : put_state) :
  put nodes format userOptions = Ok st ->
  p_options st = None /\ p_formatImpl st = None /\ p_nodes st = nodes.
Proof.
  unfold put. destruct format; try discriminate. intros [= <-]. auto.
Qed.


(** A turn under a truthy [onlyHash]: the block service is left alone
    whatever the turn settles to. *)
Lemma put_next_hash_only (st : put_state) (w : world) :
  hash_only st ->
  match put_next (st, w) with
  | (Ok IDone, (st', w')) => p_nodes st = [] /\ untouched w w'
  | (Ok (IValue c), (st', w')) =>
      hash_only st' /\ (exists node, p_nodes st = node :: p_nodes st')
      /\ untouched w w'
  | (Ok IAgain, _) => False
  | (Err e, (_, w')) => untouched w w'
  end.
Proof.
  intros Hinv. destruct (p_nodes st) as [|node rest] eqn:Hn.
  { rewrite (put_next_done st w Hn). split; [reflexivity|apply untouched_refl]. }
  assert (Hloaded : forall st0 w0 o f,
    p_nodes st0 = node :: rest -> p_options st0 = Some o ->
    p_formatImpl st0 = Some f -> truthy (field "onlyHash" o) = true ->
    untouched w w0 ->
    match put_next (st0, w0) with
    | (Ok IDone, _) => False
    | (Ok (IValue c), (st', w')) =>
        hash_only st' /\ node :: rest = node :: p_nodes st' /\ untouched w w'
    | (Ok IAgain, _) => False
    | (Err e, (_, w')) => untouched w w'
    end).
  { intros st0 w0 o f Hn0 Ho0 Hf0 Ht Hw.
    rewrite (put_next_loaded st0 w0 node rest o f Hn0 Ho0 Hf0), Ht.
    destruct (cid_of_node _ _ _) as [c|e]; [|exact Hw].
    split; [|split; [reflexivity|exact Hw]].
    unfold hash_only. cbn. now rewrite Ho0. }
  unfold hash_only in Hinv. destruct (p_options st) as [o|] eqn:Ho.
  - destruct (p_formatImpl st) as [f|] eqn:Hf.
    + specialize (Hloaded st w o f Hn Ho Hf Hinv (untouched_refl w)).
      destruct (put_next (st, w)) as [[[|c|]|e] [st' w']]; try tauto.
      destruct Hloaded as (H1 & H2 & H3). eauto.
    + unfold put_next. unfold_monad. cbn. rewrite Hn, Ho. cbn. rewrite Ho, Hf.
      apply untouched_refl.
  - destruct Hinv as (fields & v & Hu & Hnd & Hk & Ht).
    rewrite (put_next_first st w node rest Hn Ho).
    pose proof (_getFormat_untouched (CodecNum (p_format st)) w) as Hget.
    destruct (_getFormat _ w) as [[f|e] w1]; cbn in Hget; [|exact Hget].
    rewrite Hu. destruct (mergeOptions _ (VObj fields)) as [o|e] eqn:Hm; [|exact Hget].
    pose proof (mergeOptions_onlyHash _ _ _ _ Hnd Hk Hm) as Hv.
    assert (Ht' : truthy (field "onlyHash" o) = true) by now rewrite Hv.
    specialize (Hloaded (set_options o (set_formatImpl f st)) w1 o f
                  Hn eq_refl eq_refl Ht' Hget).
    destruct (put_next _) as [[[|c|]|e] [st' w']]; try tauto.
    destruct Hloaded as (H1 & H2 & H3). eauto.
Qed.

Lemma consume_put_hash_only (fuel : nat) (st : put_state) (w : world) :
  hash_only st ->
  untouched w (snd (final (consume fuel put_next (st, w))))
  /\ (ended (consume fuel put_next (st, w)) = Finished ->
      List.length (yielded (consume fuel put_next (st, w)))
      = List.length (p_nodes st))
  /\ ((List.length (p_nodes st) < fuel)%nat ->
      ended (consume fuel put_next (st, w)) <> Pending).
Proof.
  revert st w. induction fuel as [|fuel IH]; intros st w Hinv.
  { cbn. split; [apply untouched_refl|]. split; [discriminate|]. intros H. inversion H. }
  cbn [consume]. pose proof (put_next_hash_only st w Hinv) as Hstep.
  destruct (put_next (st, w)) as [[[|c|]|e] [st' w']]; cbn [yielded ended final snd].
  - destruct Hstep as [Hn Hw]. rewrite Hn. auto.
  - destruct Hstep as (Hinv' & [node Hn] & Hw).
    destruct (IH st' w' Hinv') as (Hw' & Hlen & Hfuel).
    split; [eapply untouched_trans; eauto|].
    split.
    + intros Hfin. rewrite Hn. cbn. now rewrite Hlen.
    + intros Hlt. apply Hfuel. rewrite Hn in Hlt. cbn in Hlt.
      now apply Nat.succ_lt_mono.
  - contradiction.
  - split; [exact Hstep|]. split; discriminate.
Qed.

(** With the options loaded and every CID computable, the sequence
    yields the CIDs in order and finishes, in the world it started in. *)
Lemma consume_put_loaded_hash_only
    (nodes : list jsval) (cids : list CID) (f : Format)
    (o : list (string * jsval)) :
  truthy (field "onlyHash" o) = true ->
  Forall2 (fun node c => cid_of_node (util f) node (cidOptions_of o) = Ok c)
          nodes cids ->
  forall (st : put_state) (w : world) (fuel : nat),
  p_nodes st = nodes -> p_options st = Some o -> p_formatImpl st = Some f ->
  (List.length nodes < fuel)%nat ->
  consume fuel put_next (st, w) = mkRun cids Finished (set_nodes [] st, w).
Proof.
  intros Ht Hall. induction Hall as [|node c nodes cids Hc Hall IH];
    intros st w fuel Hn Ho Hf Hfuel.
  - destruct fuel as [|fuel]; [inversion Hfuel|]. cbn [consume].
    rewrite (put_next_done st w Hn). destruct st; cbn in *; now subst.
  - destruct fuel as [|fuel]; [inversion Hfuel|]. cbn [consume].
    rewrite (put_next_loaded st w node nodes o f Hn Ho Hf), Hc, Ht.
    rewrite (IH (set_nodes nodes st) w fuel eq_refl Ho Hf).
    + reflexivity.
    + cbn in Hfuel. now apply Nat.succ_lt_mono.
Qed.

(** C7. [put] with a truthy [onlyHash] among the user's options never
    asks anything of the block service: after any number of turns the
    store is in its initial state, the trace has no new call to it, and
    every [get] answers as before.  A sequence that finishes has
    yielded one CID per node; it needs one call of [next] per node and
    one more to finish (or to fail). *)
Theorem put_onlyHash_writes_nothing
    (nodes : list jsval) (format : jsval) (fields : list (string * jsval))
    (st : put_state) (w : world) (fuel : nat) :
  put nodes format (VObj fields) = Ok st ->
  NoDup (map fst fields) ->
  assoc "onlyHash" fields = Some (VBool true) ->
  bs (snd (final (consume fuel put_next (st, w)))) = bs w
  /\ store_calls (trace (snd (final (consume fuel put_next (st, w)))))
     = store_calls (trace w)
  /\ (forall c, bs_get c (bs (snd (final (consume fuel put_next (st, w)))))
                = bs_get c (bs w))
  /\ (ended (consume fuel put_next (st, w)) = Finished ->
      List.length (yielded (consume fuel put_next (st, w))) = List.length nodes)
  /\ ((List.length nodes < fuel)%nat ->
      ended (consume fuel put_next (st, w)) <> Pending)
  /\ (forall f w1 o cids,
      nodes <> [] ->
      _getFormat (CodecNum (p_format st)) w = (Ok f, w1) ->
      mergeOptions (defaultOptions f) (VObj fields) = Ok o ->
      Forall2 (fun node c => cid_of_node (util f) node (cidOptions_of o) = Ok c)
              nodes cids ->
      (List.length nodes < fuel)%nat ->
      yielded (consume fuel put_next (st, w)) = cids
      /\ ended (consume fuel put_next (st, w)) = Finished).
Proof.
  intros Hput Hnd Hk.
  assert (Hfirst : forall f w1 o cids,
      nodes <> [] ->
      _getFormat (CodecNum (p_format st)) w = (Ok f, w1) ->
      mergeOptions (defaultOptions f) (VObj fields) = Ok o ->
      Forall2 (fun node c => cid_of_node (util f) node (cidOptions_of o) = Ok c)
              nodes cids ->
      (List.length nodes < fuel)%nat ->
      yielded (consume fuel put_next (st, w)) = cids
      /\ ended (consume fuel put_next (st, w)) = Finished).
  { intros f w1 o cids Hne Hget Hm Hall Hfuel.
    pose proof (mergeOptions_onlyHash _ _ _ _ Hnd Hk Hm) as Hv.
    assert (Ht : truthy (field "onlyHash" o) = true) by now rewrite Hv.
    unfold put in Hput. destruct format; try discriminate.
    injection Hput as <-. cbn [p_format] in Hget.
    destruct nodes as [|node rest]; [contradiction|].
    destruct fuel as [|fuel]; [inversion Hfuel|].
    set (st0 := {| p_nodes := node :: rest; p_format := n;
                   p_userOptions := VObj fields; p_options := None;
                   p_formatImpl := None |}).
    pose proof (consume_put_loaded_hash_only (node :: rest) cids f o Ht Hall
      (set_options o (set_formatImpl f st0)) w1 (S fuel)
      eq_refl eq_refl eq_refl Hfuel) as Hrun.
    rewrite (consume_same_call fuel put_next (st0, w) _
               (put_next_first st0 w node rest eq_refl eq_refl)).
    cbn [p_format p_userOptions st0]. rewrite Hget, Hm.
    rewrite <- (consume_same_call fuel put_next _ _ eq_refl).
    rewrite Hrun. auto. }
  assert (Hst : p_nodes st = nodes /\ hash_only st).
  { unfold put in Hput. destruct format; try discriminate.
    injection Hput as <-. split; [reflexivity|].
    unfold hash_only. cbn. exists fields, (VBool true). auto. }
  destruct Hst as [Hn Hinv].
  destruct (consume_put_hash_only fuel st w Hinv) as ([Hbs Htr] & Hlen & Hfuel).
  rewrite Hn in *. repeat split; auto; try (intros c; now rewrite Hbs);
    eapply Hfirst; eauto.
Qed.

End Put.

Section Remove.
Context `{C : Collaborators}.

Lemma this_bs_delete_eq (c : CID) (w : world) :
  this_bs_delete c w =
  (fst (bs_delete c (bs w)),
   {| resolvers := resolvers w;
      bs := snd (bs_delete c (bs w));
      trace := trace w ++ [EvDelete c] |}).
Proof.
  unfold this_bs_delete. unfold_monad. cbn.
  now destruct (bs_delete c (bs w)) as [r s'].
Qed.

Lemma this_bs_delete_trace (c : CID) (w : world) :
  trace (snd (this_bs_delete c w)) = (trace w ++ [EvDelete c])%list.
Proof. now rewrite this_bs_delete_eq. Qed.

Lemma delete_in_order_trace (cids : list CID) (w w' : world) :
  delete_in_order cids w = (Ok tt, w') ->
  trace w' = (trace w ++ map EvDelete cids)%list.
Proof.
  revert w. induction cids as [|c cids IH]; intros w Hrun.
  - injection Hrun as <-. cbn. now rewrite app_nil_r.
  - cbn [delete_in_order] in Hrun. unfold bind in Hrun.
    pose proof (this_bs_delete_trace c w) as Htr.
    destruct (this_bs_delete c w) as [[[]|e] w1]; [|discriminate].
    rewrite (IH w1 Hrun). cbn in Htr. rewrite Htr.
    now rewrite <- app_assoc.
Qed.

(** One call of [next] on a non-empty array. *)
Lemma remove_next_eq (c : CID) (rest : list CID) (w : world) :
  remove_next (c :: rest, w) =
  match this_bs_delete c w with
  | (Ok _, w') => (Ok (IValue c), (rest, w'))
  | (Err e, w') => (Err e, (rest, w'))
  end.
Proof.
  unfold remove_next. unfold_monad. cbn.
  now destruct (this_bs_delete c w) as [[[]|e] w'].
Qed.

Lemma remove_next_done (w : world) :
  remove_next ([], w) = (Ok IDone, ([], w)).
Proof. reflexivity. Qed.

(** While the deletions succeed, the CIDs come out in the order of the
    array, each after its own deletion. *)
Lemma consume_remove_prefix (pre rest : list CID) (w wk : world) (fuel : nat) :
  delete_in_order pre w = (Ok tt, wk) ->
  consume (List.length pre + fuel) remove_next ((pre ++ rest)%list, w) =
  mkRun (pre ++ yielded (consume fuel remove_next (rest, wk)))%list
        (ended (consume fuel remove_next (rest, wk)))
        (final (consume fuel remove_next (rest, wk))).
Proof.
  revert w. induction pre as [|c pre IH]; intros w Hrun.
  - injection Hrun as <-. cbn [List.length Nat.add app].
    now destruct (consume fuel remove_next (rest, w)).
  - cbn [delete_in_order] in Hrun. unfold bind in Hrun.
    cbn [List.length Nat.add app consume]. rewrite remove_next_eq.
    destruct (this_bs_delete c w) as [[[]|e] w1]; [|discriminate].
    now rewrite (IH w1 Hrun).
Qed.

(** Every deletion succeeds: one CID per deletion, then done. *)
Lemma remove_all (cids : list CID) (w w' : world) (fuel : nat) :
  delete_in_order cids w = (Ok tt, w') ->
  (List.length cids < fuel)%nat ->
  consume fuel remove_next (remove cids, w) = mkRun cids Finished ([], w').
Proof.
  intros Hrun Hfuel. unfold remove.
  replace fuel with (List.length cids + S (fuel - S (List.length cids)))%nat by lia.
  pose proof (consume_remove_prefix cids [] w w'
                (S (fuel - S (List.length cids))) Hrun) as Hpre.
  rewrite app_nil_r in Hpre. rewrite Hpre.
  cbn [consume]. rewrite remove_next_done. cbn. now rewrite app_nil_r.
Qed.


End Remove.

Section Tree.
Context `{C : Collaborators}.

Lemma prefix_append (a b : string) : String.prefix a (a ++ b) = true.
Proof.
  induction a as [|c a IH].
  - now destruct b.
  - change (String c a ++ b) with (String c (a ++ b)).
    cbn [String.prefix].
    destruct (ascii_dec c c) as [_|Hne]; [exact IH|contradiction].
Qed.

Lemma length_append (a b : string) :
  String.length (a ++ b) = (String.length a + String.length b)%nat.
Proof.
  induction a as [|c a IH]; [reflexivity|].
  change (String c a ++ b) with (String c (a ++ b)).
  cbn [String.length Nat.add]. now rewrite IH.
Qed.

Lemma slice_from_append (a b : string) :
  slice_from (String.length a) (a ++ b) = b.
Proof. induction a as [|c a IH]; [reflexivity|exact IH]. Qed.

Lemma slice_from_separator (a b : string) :
  slice_from (String.length a + 1) (a ++ "/" ++ b) = b.
Proof. induction a as [|c a IH]; [reflexivity|exact IH]. Qed.

(** What lines 324-335 emit, in general. *)
Lemma tree_emit_eq (off full : string) :
  tree_emit (VStr off) full =
  if String.prefix off full && (String.length off <? String.length full)%nat
  then IValue (match off with
               | EmptyString => full
               | _ => slice_from (String.length off + 1) full
               end)
  else IAgain.
Proof. unfold tree_emit. now destruct off. Qed.

(** Below a non-empty offset path, a candidate that continues it with a
    separator is emitted as what follows the separator. *)
Lemma tree_emit_below (off rest : string) :
  off <> "" ->
  tree_emit (VStr off) (off ++ "/" ++ rest) = IValue rest.
Proof.
  intros Hoff. rewrite tree_emit_eq, prefix_append, length_append.
  assert (Hlt : (String.length off
                 <? String.length off + String.length ("/" ++ rest))%nat = true).
  { apply Nat.ltb_lt. change ("/" ++ rest) with (String "/" rest).
    cbn [String.length]. lia. }
  rewrite Hlt. cbn [andb]. rewrite slice_from_separator. now destruct off.
Qed.

Lemma tree_next_done (off : jsval) (options : list (string * jsval))
    (st : tree_state) (w : world) :
  t_treePaths st = [] -> t_queue st = [] ->
  tree_next off options (st, w) = (Ok IDone, (st, w)).
Proof.
  intros Hb Hq. unfold tree_next. unfold_monad. cbn. now rewrite Hb, Hq.
Qed.

(** A call of [next] that is not done computes a candidate and settles
    to what [tree_emit] makes of it. *)
Lemma tree_next_eq (off : jsval) (options : list (string * jsval))
    (st : tree_state) (w : world) :
  t_treePaths st <> [] \/ t_queue st <> [] ->
  tree_next off options (st, w) =
  match tree_candidate options (st, w) with
  | (Ok full, s') => (Ok (tree_emit off full), s')
  | (Err e, s') => (Err e, s')
  end.
Proof.
  intros Hmore. unfold tree_next. unfold_monad. cbn.
  destruct (t_treePaths st) as [|seg rest], (t_queue st) as [|q queue];
    try reflexivity.
  destruct Hmore; contradiction.
Qed.

(** With a segment in the buffer, the candidate is the base path
    followed by that segment. *)
Lemma tree_candidate_buffered (options : list (string * jsval))
    (st : tree_state) (w : world) (seg : string) (rest : list string)
    (bp full : string) (s' : tree_state * world) :
  t_treePaths st = seg :: rest ->
  t_basePath st = Some bp ->
  tree_candidate options (st, w) = (Ok full, s') ->
  full = bp ++ seg.
Proof.
  intros Hb Hbp. unfold tree_candidate, tree_refill, tree_follow.
  unfold_monad. cbn. rewrite Hb. cbn. rewrite Hb, Hbp. cbn.
  destruct (truthy _); cbn.
  - destruct (maybeRecurse _ _ w) as [[cid|e] w']; cbn; now intros [= <- _].
  - now intros [= <- _].
Qed.

(** C9, as the code has it. For every candidate [full] that a call of
    [next] computes (the base path followed by the segment, when the
    segment comes from the buffer): if [full] starts with the offset
    path and is strictly longer, the call emits one string, which is
    [full] itself under the empty offset path and, under a non-empty
    one that [full] continues with a separator, what follows the
    separator; otherwise the call emits nothing and the sequence goes
    on with the next candidate. *)
Theorem tree_emits_strict_extensions
    (off : string) (options : list (string * jsval))
    (st st' : tree_state) (w w' : world) (full : string) (fuel : nat) :
  t_treePaths st <> [] \/ t_queue st <> [] ->
  tree_candidate options (st, w) = (Ok full, (st', w')) ->
  (forall seg rest bp,
     t_treePaths st = seg :: rest -> t_basePath st = Some bp ->
     full = bp ++ seg)
  /\ ended (consume (S fuel) (tree_next (VStr off) options) (st, w))
     = ended (consume fuel (tree_next (VStr off) options) (st', w'))
  /\ final (consume (S fuel) (tree_next (VStr off) options) (st, w))
     = final (consume fuel (tree_next (VStr off) options) (st', w'))
  /\ if String.prefix off full && (String.length off <? String.length full)%nat
     then exists s,
       yielded (consume (S fuel) (tree_next (VStr off) options) (st, w))
       = s :: yielded (consume fuel (tree_next (VStr off) options) (st', w'))
       /\ (off = "" -> s = full)
       /\ (forall tl, off <> "" -> full = off ++ "/" ++ tl -> s = tl)
     else
       yielded (consume (S fuel) (tree_next (VStr off) options) (st, w))
       = yielded (consume fuel (tree_next (VStr off) options) (st', w')).
Proof.
  intros Hmore Hcand. split.
  { intros seg rest bp Hb Hbp.
    exact (tree_candidate_buffered options st w seg rest bp full _ Hb Hbp Hcand). }
  rewrite (consume_same_call fuel _ _ _ (tree_next_eq (VStr off) options st w Hmore)).
  rewrite Hcand.
  pose proof (tree_emit_eq off full) as Hemit.
  destruct (String.prefix off full && _) eqn:Htest; rewrite Hemit.
  - cbn [yielded ended final]. split; [reflexivity|]. split; [reflexivity|].
    eexists. split; [reflexivity|]. split.
    + now intros ->.
    + intros tl Hoff ->.
      pose proof (tree_emit_below off tl Hoff) as Hbelow.
      rewrite tree_emit_eq, Htest in Hbelow. now injection Hbelow.
  - auto.
Qed.

(** C10. With a plain object in the place of the offset path, the call
    of [tree] succeeds and takes the object as its options, whatever
    the third argument, and the empty string as the offset path: the
    options are the defaults merged with the object, and the closure
    returned is the very one [tree(cid, '', o)] returns, so every run of
    the iterator is the same too. *)
Theorem tree_options_in_offset_position
    (cid : CID) (fields : list (string * jsval)) (third : jsval) :
  (exists options,
     mergeOptions [("recursive", VBool false)] (VObj fields) = Ok options
     /\ tree cid (VObj fields) third
        = Ok {| t_offsetPath := VStr "";
                t_options := options;
                t_init := {| t_cid := Some cid; t_treePaths := [];
                             t_block := None; t_queue := [(cid, "")];
                             t_basePath := None |} |}
     /\ tree cid (VStr "") (VObj fields)
        = Ok {| t_offsetPath := VStr "";
                t_options := options;
                t_init := {| t_cid := Some cid; t_treePaths := [];
                             t_block := None; t_queue := [(cid, "")];
                             t_basePath := None |} |})
  /\ tree cid (VObj fields) third = tree cid (VStr "") (VObj fields)
  /\ (forall cl, tree cid (VObj fields) third = Ok cl ->
                 t_offsetPath cl = VStr ""
                 /\ mergeOptions [("recursive", VBool false)] (VObj fields)
                    = Ok (t_options cl))
  /\ (forall cl cl' fuel w,
        tree cid (VObj fields) third = Ok cl ->
        tree cid (VStr "") (VObj fields) = Ok cl' ->
        consume fuel (tree_next (t_offsetPath cl) (t_options cl)) (t_init cl, w)
        = consume fuel (tree_next (t_offsetPath cl') (t_options cl')) (t_init cl', w)).
Proof.
  assert (Heq : tree cid (VObj fields) third = tree cid (VStr "") (VObj fields))
    by reflexivity.
  split; [|split; [exact Heq|split]].
  - eexists. split; [reflexivity|]. split; reflexivity.
  - intros cl. unfold tree. cbn. intros [= <-]. auto.
  - intros cl cl' fuel w H1 H2. rewrite Heq, H2 in H1. now injection H1 as ->.
Qed.

End Tree.

(** * The resolver at work on the in-memory instance *)

Import Memory.


(** The two encodings of the link side by side: resolving [a] (old
    style) and [b] (native) gives the same steps, the same end, the same
    calls of the block service. *)
Example resolve_both_encodings :
  let run_of p :=
    consume 5 (resolve_next (C:=static))
            ({| r_cid := Some root; r_path := p |}, registered) in
  yielded (run_of "a") = yielded (run_of "b")
  /\ ended (run_of "a") = Finished
  /\ ended (run_of "b") = Finished
  /\ fst (final (run_of "a")) = fst (final (run_of "b"))
  /\ trace (snd (final (run_of "a"))) = trace (snd (final (run_of "b")))
  /\ yielded (run_of "a")
     = [ {| remainderPath := ""; value := VCID leaf |};
         {| remainderPath := ""; value := VStr "leaf" |} ].
Proof. vm_compute. repeat split. Qed.

Lemma cbor_same_links :
  same_links (C:=static) (registry_entry dagCbor) (registry_entry dagCborNative).
Proof.
  intros data path. cbn. unfold cbor_resolve_native, cbor_resolve.
  destruct (String.eqb data "root") eqn:Hdata; cbn [andb].
  - destruct (String.eqb path "a") eqn:Hpath.
    + split; [reflexivity|]. right. exists (VStr "leaf"), leaf. auto.
    + destruct (String.eqb path "b"); [cbn; auto|].
      destruct (String.eqb path "n"); [cbn; auto|].
      destruct (String.eqb path "c"); cbn; auto.
  - cbn. auto.
Qed.

Lemma registered_alike : alike (C:=static) registered registered_native.
Proof.
  split; [reflexivity|]. split; [reflexivity|].
  intros c.
  change (resolvers registered)
    with (<[113 := registry_entry dagCbor]> (∅ : gmap Z Format)).
  change (resolvers registered_native)
    with (<[113 := registry_entry dagCborNative]> (∅ : gmap Z Format)).
  destruct (decide (113 = c)) as [<-|Hne].
  - rewrite !lookup_insert_eq. exact cbor_same_links.
  - rewrite !lookup_insert_ne by exact Hne. now rewrite !lookup_empty.
Qed.

(** The codec with old style links and the codec with native links,
    step for step, on the path through the link. *)
Lemma resolve_runs_alike_witness :
  yielded (consume 5 (resolve_next (C:=static))
             ({| r_cid := Some root; r_path := "a" |}, registered))
  = yielded (consume 5 (resolve_next (C:=static))
               ({| r_cid := Some root; r_path := "a" |}, registered_native)).
Proof.
  exact (proj1 (resolve_runs_alike (C:=static) 5
                  {| r_cid := Some root; r_path := "a" |}
                  registered registered_native registered_alike)).
Defined.

(** C2 on the code: the field [n] of the root block is [null].  [next]
    throws a [TypeError] from [Object.keys] and no step is emitted,
    where the claim has [null] emitted as it is; a one-character string
    (field [c]) fails at the [in] operator.  [_maybeCID], the same
    conversion for [tree], lets both through. *)
Theorem resolve_null_value_throws :
  consume 5 (resolve_next (C:=static))
          ({| r_cid := Some root; r_path := "n" |}, registered)
  = mkRun [] (Failed (TypeError "Cannot convert undefined or null to object"))
          ({| r_cid := Some root; r_path := "" |}, record (EvGet root) registered)
  /\ ended (consume 5 (resolve_next (C:=static))
                    ({| r_cid := Some root; r_path := "c" |}, registered))
     = Failed (TypeError "Cannot use 'in' operator to search for '/'")
  /\ _maybeCID (C:=static) VNull = Ok None
  /\ _maybeCID (C:=static) (VStr "x") = Ok None.
Proof. vm_compute. repeat split. Qed.


(** C5 at work: dag-cbor is registered, and registering it again
    fails. *)
Lemma addFormat_duplicate_witness :
  addFormat (C:=static) dagCbor registered
  = (Err (ResolverExists 113), registered).
Proof.
  apply (proj1 (addFormat_duplicate (C:=static) registered dagCbor
                  (registry_entry dagCbor) 113 eq_refl eq_refl)).
Defined.

(** C4 on the code. dag-cbor declares the default hash algorithm 18
    (sha2-256) and was registered with [addFormat]; [put] is called
    without options.  No option is there before the first turn; the
    first turn merges them, and the hash algorithm it hands to the
    codec is [undefined], not 18: the registry entry [addFormat] built
    has no [defaultHashAlg].  On a resolver that loads dag-cbor on that
    first turn, [_getFormat] returns the loader's own object and the
    hash algorithm is 18. *)
Theorem put_registered_format_hashAlg_undefined :
  exists st,
    put [VStr "n1"] (VNum 113) VUndefined = Ok st
    /\ p_options st = None
    /\ defaultHashAlg dagCbor = VNum 18
    /\ fst (put_next (C:=static) (st, registered))
       = Ok (IValue (mkCID 1 "dag-cbor" "undefined:n1"))
    /\ p_options (fst (snd (put_next (C:=static) (st, registered))))
       = Some [("hashAlg", VUndefined); ("cidVersion", VNum 1);
               ("onlyHash", VBool false)]
    /\ fst (put_next (C:=loading) (st, unloaded))
       = Ok (IValue (mkCID 1 "dag-cbor" "sha2-256:n1"))
    /\ p_options (fst (snd (put_next (C:=loading) (st, unloaded))))
       = Some [("hashAlg", VNum 18); ("cidVersion", VNum 1);
               ("onlyHash", VBool false)].
Proof. eexists. split; [reflexivity|]. vm_compute. repeat split. Qed.

(** C6 on the code. dag-cbor is not registered and the loader knows
    it.  The first lookup calls the loader and returns the loader's
    object; the second finds the codec registered, does not call the
    loader, and returns the registry entry, which is another object: it
    has no [defaultHashAlg]. *)
Theorem _getFormat_after_load_returns_entry :
  let first := _getFormat (C:=loading) (CodecNum 113) unloaded in
  let second := _getFormat (C:=loading) (CodecNum 113) (snd first) in
  fst first = Ok dagCbor
  /\ fst second = Ok (registry_entry dagCbor)
  /\ fst second <> fst first
  /\ trace (snd first) = [EvLoad (Some 113)]
  /\ trace (snd second) = [EvLoad (Some 113)].
Proof.
  cbv zeta.
  assert (H1 : fst (_getFormat (C:=loading) (CodecNum 113) unloaded) = Ok dagCbor)
    by reflexivity.
  assert (H2 : fst (_getFormat (C:=loading) (CodecNum 113)
                      (snd (_getFormat (C:=loading) (CodecNum 113) unloaded)))
               = Ok (registry_entry dagCbor)) by (vm_compute; reflexivity).
  rewrite H1, H2. repeat split; try (vm_compute; reflexivity).
  intros Heq. injection Heq as Heq. discriminate Heq.
Qed.

(** C7 at work: two nodes, [{ onlyHash: true }], on the resolver that
    has still to load dag-cbor. *)
Lemma put_onlyHash_writes_nothing_witness :
  bs (snd (final (consume 5 (put_next (C:=loading))
     ({| p_nodes := [VStr "n1"; VStr "n2"]; p_format := 113;
         p_userOptions := VObj [("onlyHash", VBool true)];
         p_options := None; p_formatImpl := None |}, unloaded))))
  = blocks.
Proof.
  refine (proj1 (put_onlyHash_writes_nothing (C:=loading)
    [VStr "n1"; VStr "n2"] (VNum 113) [("onlyHash", VBool true)]
    _ unloaded 5%nat eq_refl _ eq_refl)).
  repeat constructor. cbn. intros Hin. inversion Hin.
Defined.

(** The run behind it: both CIDs, no block written. *)
Example put_onlyHash_run :
  let r := consume 5 (put_next (C:=loading))
     ({| p_nodes := [VStr "n1"; VStr "n2"]; p_format := 113;
         p_userOptions := VObj [("onlyHash", VBool true)];
         p_options := None; p_formatImpl := None |}, unloaded) in
  yielded r = [mkCID 1 "dag-cbor" "sha2-256:n1"; mkCID 1 "dag-cbor" "sha2-256:n2"]
  /\ ended r = Finished
  /\ bs (snd (final r)) = blocks
  /\ trace (snd (final r)) = [EvLoad (Some 113)].
Proof. vm_compute. repeat split. Qed.


(** C9 as stated, on the code: below the offset path ["a"], the
    candidate ["a/b"] is emitted as ["b"], the offset path and the
    separator gone, where stripping the offset-path prefix leaves
    ["/b"]. *)
Lemma tree_offset_strips_separator :
  tree_emit (VStr "a") "a/b" = IValue "b"
  /\ strip_prefix "a" "a/b" = "/b"
  /\ tree_emit (VStr "a") "a/b" <> IValue (strip_prefix "a" "a/b")
  /\ (exists cl,
        tree root (VStr "a") VUndefined = Ok cl
        /\ yielded (consume 9 (tree_next (C:=static) (t_offsetPath cl) (t_options cl))
                             (t_init cl, registered))
           = ["b"]).
Proof.
  split; [reflexivity|]. split; [reflexivity|]. split; [discriminate|].
  eexists. split; [reflexivity|]. vm_compute. reflexivity.
Qed.

(** C9 at work: the candidate ["a/b"] below ["a"]. *)
Lemma tree_emits_strict_extensions_witness :
  exists s,
    yielded (consume 3 (tree_next (C:=static) (VStr "a") [("recursive", VBool false)])
                     (below_a, registered))
    = s :: yielded (consume 2 (tree_next (C:=static) (VStr "a") [("recursive", VBool false)])
                            ({| t_cid := Some root; t_treePaths := ["c"];
                                t_block := Some {| block_data := "root"; block_cid := root |};
                                t_queue := []; t_basePath := Some "" |}, registered))
    /\ ("a" = "" -> s = "a/b")
    /\ (forall tl, "a" <> "" -> "a/b" = "a" ++ "/" ++ tl -> s = tl).
Proof.
  refine (proj2 (proj2 (proj2 (tree_emits_strict_extensions (C:=static)
    "a" [("recursive", VBool false)] below_a _ registered registered "a/b" 2%nat
    _ _)))).
  - left. cbn. discriminate.
  - reflexivity.
Defined.

(** C10 at work: [tree(root, { recursive: true }, 7)].  The object is
    the options and the third argument is dropped; on the codec whose
    root links to the leaf the run is the recursive one. *)
Lemma tree_options_in_offset_position_witness :
  (exists options,
     mergeOptions [("recursive", VBool false)] (VObj [("recursive", VBool true)])
     = Ok options
     /\ tree root (VObj [("recursive", VBool true)]) (VNum 7)
        = Ok {| t_offsetPath := VStr "";
                t_options := options;
                t_init := {| t_cid := Some root; t_treePaths := [];
                             t_block := None; t_queue := [(root, "")];
                             t_basePath := None |} |}
     /\ tree root (VStr "") (VObj [("recursive", VBool true)])
        = Ok {| t_offsetPath := VStr "";
                t_options := options;
                t_init := {| t_cid := Some root; t_treePaths := [];
                             t_block := None; t_queue := [(root, "")];
                             t_basePath := None |} |})
  /\ tree root (VObj [("recursive", VBool true)]) (VNum 7)
     = Ok {| t_offsetPath := VStr "";
             t_options := [("recursive", VBool true)];
             t_init := {| t_cid := Some root; t_treePaths := [];
                          t_block := None; t_queue := [(root, "")];
                          t_basePath := None |} |}
  /\ yielded (consume 6 (tree_next (C:=static) (VStr "") [("recursive", VBool true)])
                ({| t_cid := Some root; t_treePaths := []; t_block := None;
                    t_queue := [(root, "")]; t_basePath := None |},
                 registered_linked))
     = ["a"; "a/x"; "a/y"].
Proof.
  split; [|split].
  - exact (proj1 (tree_options_in_offset_position (C:=static) root
                    [("recursive", VBool true)] (VNum 7))).
  - reflexivity.
  - vm_compute. reflexivity.
Defined.

(** * Further properties of the registry *)

Section RegistryLifecycle.
Context `{C : Collaborators}.

Lemma removeFormat_eq (codec : Z) (w : world) :
  removeFormat codec w = (Ok tt, set_resolvers (delete codec) w).
Proof.
  unfold removeFormat. unfold_monad. cbn.
  destruct (resolvers w !! codec) eqn:Hc; [reflexivity|].
  destruct w as [rs s t]. unfold set_resolvers. cbn in *.
  now rewrite (delete_id rs codec Hc).
Qed.

(** X1. [removeFormat] never throws; afterwards the codec is unregistered,
    every other codec is registered as before, and the store and the
    trace are untouched.  On a codec that is not registered the resolver
    is left exactly as it was. *)
Theorem removeFormat_unregisters (codec : Z) (w : world) :
  fst (removeFormat codec w) = Ok tt
  /\ resolvers (snd (removeFormat codec w)) !! codec = None
  /\ (forall c, c <> codec ->
        resolvers (snd (removeFormat codec w)) !! c = resolvers w !! c)
  /\ bs (snd (removeFormat codec w)) = bs w
  /\ trace (snd (removeFormat codec w)) = trace w
  /\ (resolvers w !! codec = None -> snd (removeFormat codec w) = w).
Proof.
  rewrite removeFormat_eq. cbn. repeat split.
  - apply lookup_delete_eq.
  - intros c Hne. now apply lookup_delete_ne.
  - intros Hfree. destruct w as [rs s t]. unfold set_resolvers. cbn in *.
    now rewrite (delete_id rs codec Hfree).
Qed.

(** X2. Registering a format under a free codec and removing that codec
    again gives back the resolver one started with. *)
Theorem addFormat_removeFormat_round_trip (format : Format) (codec : Z) (w : world) :
  getCode (multicodec (resolver format)) = Ok codec ->
  resolvers w !! codec = None ->
  (addFormat format ;; removeFormat codec) w = (Ok tt, w).
Proof.
  intros Hcode Hfree. unfold bind.
  rewrite (addFormat_fresh w format codec Hcode Hfree), removeFormat_eq.
  destruct w as [rs s t]. unfold set_resolvers. cbn in *.
  now rewrite (delete_insert_id rs codec _ Hfree).
Qed.

(** X3. After [removeFormat], the codec can be registered again: the
    registration succeeds whatever was registered before, and the new
    format's entry is the one the registry holds. *)
Theorem removeFormat_then_addFormat (format : Format) (codec : Z) (w : world) :
  getCode (multicodec (resolver format)) = Ok codec ->
  fst ((removeFormat codec ;; addFormat format) w) = Ok tt
  /\ resolvers (snd ((removeFormat codec ;; addFormat format) w)) !! codec
     = Some (registry_entry format)
  /\ forall c, c <> codec ->
       resolvers (snd ((removeFormat codec ;; addFormat format) w)) !! c
       = resolvers w !! c.
Proof.
  intros Hcode. unfold bind. rewrite removeFormat_eq.
  rewrite (addFormat_fresh _ format codec Hcode)
    by (cbn; apply lookup_delete_eq).
  cbn. split; [reflexivity|]. split; [apply lookup_insert_eq|].
  intros c Hne. rewrite lookup_insert_ne by congruence.
  now apply lookup_delete_ne.
Qed.

(** X4. A format registered under a free codec is what the next lookup of
    that codec finds, by number or by a name that stands for it: the
    lookup returns the entry holding the format's [resolver] and [util]
    and does not call the loader. *)
Theorem addFormat_then__getFormat
    (format : Format) (codec : Z) (name : codec_arg) (w : world) :
  getCode (multicodec (resolver format)) = Ok codec ->
  resolvers w !! codec = None ->
  codec_number name = Some codec ->
  fst ((addFormat format ;; _getFormat name) w) = Ok (registry_entry format)
  /\ resolver (registry_entry format) = resolver format
  /\ util (registry_entry format) = util format
  /\ trace (snd ((addFormat format ;; _getFormat name) w)) = trace w.
Proof.
  intros Hcode Hfree Hname. unfold bind.
  rewrite (addFormat_fresh w format codec Hcode Hfree).
  rewrite (_getFormat_registered _ name codec (registry_entry format) Hname)
    by (cbn; apply lookup_insert_eq).
  cbn. auto.
Qed.

(** X5. A loader that answers the request for one codec with the format of
    another: the first lookup returns that format and registers it
    under its own codec, the requested codec stays unregistered, and the
    second lookup calls the loader again and fails with "Resolver
    already exists" for the format's codec. *)
Theorem _getFormat_loader_other_codec
    (w : world) (name : codec_arg) load (format : Format) (asked got : Z) :
  options_loadFormat = Some load ->
  codec_number name = Some asked ->
  load (Some asked) = Ok format ->
  getCode (multicodec (resolver format)) = Ok got ->
  got <> asked ->
  resolvers w !! asked = None ->
  resolvers w !! got = None ->
  fst (_getFormat name w) = Ok format
  /\ resolvers (snd (_getFormat name w)) !! asked = None
  /\ resolvers (snd (_getFormat name w)) !! got = Some (registry_entry format)
  /\ fst (_getFormat name (snd (_getFormat name w))) = Err (ResolverExists got)
  /\ trace (snd (_getFormat name (snd (_getFormat name w))))
     = (trace w ++ [EvLoad (Some asked); EvLoad (Some asked)])%list.
Proof.
  intros Hload Hname Hok Hcode Hne Hasked Hgot.
  assert (Hfirst : _getFormat name w
    = (Ok format,
       set_resolvers <[got := registry_entry format]>
         (record (EvLoad (Some asked)) w))).
  { unfold _getFormat, this_loadFormat. unfold_monad.
    rewrite Hname. cbn. rewrite Hasked, Hload. cbn. rewrite Hok. cbn.
    rewrite (addFormat_fresh _ format got Hcode) by exact Hgot.
    reflexivity. }
  rewrite Hfirst. cbn [fst snd].
  assert (Hasked' : resolvers (set_resolvers <[got := registry_entry format]>
                      (record (EvLoad (Some asked)) w)) !! asked = None).
  { cbn. now rewrite lookup_insert_ne. }
  assert (Hgot' : resolvers (set_resolvers <[got := registry_entry format]>
                    (record (EvLoad (Some asked)) w)) !! got
                  = Some (registry_entry format)).
  { cbn. apply lookup_insert_eq. }
  split; [reflexivity|]. split; [exact Hasked'|]. split; [exact Hgot'|].
  unfold _getFormat, this_loadFormat. unfold_monad.
  rewrite Hname. cbn [mbind option_bind]. rewrite Hasked', Hload. cbn.
  rewrite Hok. cbn.
  rewrite (addFormat_taken _ format _ got Hcode)
    by (cbn; apply lookup_insert_eq).
  cbn. split; [reflexivity|]. now rewrite <- app_assoc.
Qed.

End RegistryLifecycle.

Section Constructor.
Context `{C : Collaborators}.

Lemma addFormats_registers (formats : list Format) (codes : list Z) :
  Forall2 (fun f c => getCode (multicodec (resolver f)) = Ok c) formats codes ->
  NoDup codes ->
  forall w : world,
  (forall c, In c codes -> resolvers w !! c = None) ->
  exists w',
    addFormats formats w = (Ok tt, w')
    /\ bs w' = bs w /\ trace w' = trace w
    /\ (forall c, ~ In c codes -> resolvers w' !! c = resolvers w !! c)
    /\ Forall2 (fun f c => resolvers w' !! c = Some (registry_entry f))
               formats codes.
Proof.
  intros Hall. induction Hall as [|f c formats codes Hc Hall IH];
    intros Hnd w Hfree.
  - exists w. cbn. repeat split; auto.
  - apply NoDup_cons in Hnd as [Hfresh Hnd].
    rewrite list_elem_of_In in Hfresh.
    assert (Hw : resolvers w !! c = None) by (apply Hfree; now left).
    destruct (IH Hnd (set_resolvers <[c := registry_entry f]> w))
      as (w' & Hrun & Hbs & Htr & Hout & Hin).
    { intros c' Hc'. cbn. rewrite lookup_insert_ne by (intros ->; contradiction).
      apply Hfree. now right. }
    exists w'. cbn [addFormats]. unfold bind.
    rewrite (addFormat_fresh w f c Hc Hw), Hrun.
    repeat split; auto.
    + intros c' Hc'. rewrite Hout by (intros H; apply Hc'; now right).
      cbn. apply lookup_insert_ne. intros ->. apply Hc'. now left.
    + constructor; [|exact Hin].
      rewrite Hout by exact Hfresh. cbn. apply lookup_insert_eq.
Qed.

Lemma addFormats_distinct (formats : list Format) (w w' : world) :
  addFormats formats w = (Ok tt, w') ->
  exists codes,
    Forall2 (fun f c => getCode (multicodec (resolver f)) = Ok c) formats codes
    /\ NoDup codes
    /\ forall c, In c codes -> resolvers w !! c = None.
Proof.
  revert w. induction formats as [|f formats IH]; intros w Hrun.
  - exists []. repeat split; [constructor|constructor|intros c []].
  - cbn [addFormats] in Hrun. unfold bind in Hrun.
    destruct (getCode (multicodec (resolver f))) as [c|e] eqn:Hc.
    2: { unfold addFormat in Hrun. unfold_monad. rewrite Hc in Hrun. discriminate. }
    destruct (resolvers w !! c) as [entry|] eqn:Hw.
    { rewrite (addFormat_taken w f entry c Hc Hw) in Hrun. discriminate. }
    rewrite (addFormat_fresh w f c Hc Hw) in Hrun.
    destruct (IH _ Hrun) as (codes & Hall & Hnd & Hfree).
    exists (c :: codes). split; [now constructor|]. split.
    + apply NoDup_cons. split; [|exact Hnd].
      rewrite list_elem_of_In. intros Hin.
      specialize (Hfree c Hin). cbn in Hfree.
      rewrite lookup_insert_eq in Hfree. discriminate.
    + intros c' [<-|Hin]; [exact Hw|].
      specialize (Hfree c' Hin). cbn in Hfree.
      destruct (decide (c = c')) as [->|Hne].
      * rewrite lookup_insert_eq in Hfree. discriminate.
      * now rewrite lookup_insert_ne in Hfree.
Qed.

(** X7. Constructed with a block service and formats whose codec names are
    known and whose codecs are pairwise distinct, the resolver holds
    that block service, an empty trace, the entry of every format under
    its codec and nothing under any other codec. *)
Theorem constructor_registers_formats
    (defaultFormats formats : list Format) (codes : list Z) (store : Store) :
  Forall2 (fun f c => getCode (multicodec (resolver f)) = Ok c) formats codes ->
  NoDup codes ->
  exists w,
    constructor defaultFormats (Some store) (Some formats) = Ok w
    /\ bs w = store /\ trace w = []
    /\ Forall2 (fun f c => resolvers w !! c = Some (registry_entry f))
               formats codes
    /\ forall c, ~ In c codes -> resolvers w !! c = None.
Proof.
  intros Hall Hnd.
  destruct (addFormats_registers formats codes Hall Hnd
              {| resolvers := ∅; bs := store; trace := [] |})
    as (w & Hrun & Hbs & Htr & Hout & Hin).
  { intros c _. apply lookup_empty. }
  exists w. unfold constructor. cbn. rewrite Hrun.
  repeat split; auto;
    intros c Hc; rewrite (Hout c Hc); apply lookup_empty.
Qed.

(** X8. Two of the formats handed to the constructor have the same codec:
    the constructor throws, whatever else is in the array. *)
Theorem constructor_refuses_duplicates
    (defaultFormats formats : list Format) (store : Store)
    (i j : nat) (f1 f2 : Format) (codec : Z) :
  formats !! i = Some f1 ->
  formats !! j = Some f2 ->
  i <> j ->
  getCode (multicodec (resolver f1)) = Ok codec ->
  getCode (multicodec (resolver f2)) = Ok codec ->
  exists e, constructor defaultFormats (Some store) (Some formats) = Err e.
Proof.
  intros Hi Hj Hne H1 H2. unfold constructor. cbn.
  destruct (addFormats formats _) as [[[]|e] w] eqn:Hrun; [|eauto].
  exfalso.
  destruct (addFormats_distinct formats _ w Hrun) as (codes & Hall & Hnd & _).
  destruct (Forall2_lookup_l _ _ _ i f1 Hall Hi) as (c1 & Hc1 & Hf1).
  destruct (Forall2_lookup_l _ _ _ j f2 Hall Hj) as (c2 & Hc2 & Hf2).
  rewrite H1 in Hf1. rewrite H2 in Hf2.
  injection Hf1 as <-. injection Hf2 as <-.
  apply Hne. exact (NoDup_lookup codes i j codec Hnd Hc1 Hc2).
Qed.

End Constructor.

(** * Further properties of the iterators *)

(** A relation that every call of [next] keeps is kept by a run. *)
Lemma consume_invariant {S V} (R : S -> S -> Prop) (next : M S (iter_result V)) :
  (forall s, R s s) ->
  (forall a b c, R a b -> R b c -> R a c) ->
  (forall s, R s (snd (next s))) ->
  forall fuel s, R s (final (consume fuel next s)).
Proof.
  intros Hrefl Htrans Hstep. induction fuel as [|fuel IH]; intros s.
  { apply Hrefl. }
  cbn [consume]. specialize (Hstep s).
  destruct (next s) as [[[|v|]|e] s']; cbn [final snd] in *; auto.
  - eapply Htrans; [exact Hstep|apply IH].
  - eapply Htrans; [exact Hstep|apply IH].
Qed.

Lemma store_calls_app (a b : list event) :
  store_calls (a ++ b) = (store_calls a ++ store_calls b)%list.
Proof. apply List.filter_app. Qed.

Lemma writes_store_calls (t : list event) :
  writes (store_calls t) = writes t.
Proof.
  unfold writes, store_calls.
  induction t as [|ev t IH]; [reflexivity|].
  destruct ev; cbn; rewrite ?IH; reflexivity.
Qed.

Section ReadOnly.
Context `{C : Collaborators}.

Lemma unwritten_refl (w : world) : unwritten w w.
Proof. split; reflexivity. Qed.

Lemma unwritten_trans (w1 w2 w3 : world) :
  unwritten w1 w2 -> unwritten w2 w3 -> unwritten w1 w3.
Proof. intros [H1 H2] [H3 H4]. split; congruence. Qed.

Lemma untouched_unwritten (w w' : world) : untouched w w' -> unwritten w w'.
Proof.
  intros [Hbs Hcalls]. split; [exact Hbs|].
  now rewrite <- (writes_store_calls (trace w')), Hcalls, writes_store_calls.
Qed.

Lemma unwritten_get (c : CID) (w : world) : unwritten w (record (EvGet c) w).
Proof.
  split; [reflexivity|]. cbn. unfold writes.
  rewrite List.filter_app. cbn. apply app_nil_r.
Qed.

Lemma _getFormat_unwritten (codec : codec_arg) (w : world) :
  unwritten w (snd (_getFormat codec w)).
Proof. apply untouched_unwritten, _getFormat_untouched. Qed.

Lemma resolve_next_unwritten (st : resolve_state) (w : world) :
  unwritten w (snd (snd (resolve_next (st, w)))).
Proof.
  destruct (r_cid st) as [cid|] eqn:Hcid.
  2: { rewrite (resolve_next_done st w Hcid). apply unwritten_refl. }
  rewrite (resolve_next_eq st w cid Hcid).
  pose proof (_getFormat_unwritten (CodecName (cid_codec cid)) w) as Hget.
  destruct (_getFormat _ w) as [[format|e] w1]; cbn [snd] in *; [|exact Hget].
  assert (Hw : unwritten w (record (EvGet cid) w1))
    by (eapply unwritten_trans; [exact Hget|apply unwritten_get]).
  destruct (bs_get cid (bs w1)) as [block|e]; [|exact Hw].
  destruct (resolve_in_node _ _ _) as [result|e]; [|exact Hw].
  destruct (convert_old_style_link _) as [v|e]; exact Hw.
Qed.

(** X9. [resolve] only reads: however far a sequence is pulled and however
    it ends, the store is in the state it started in and no [put] or
    [delete] was asked of the block service. *)
Theorem resolve_only_reads (fuel : nat) (st : resolve_state) (w : world) :
  bs (snd (final (consume fuel resolve_next (st, w)))) = bs w
  /\ writes (trace (snd (final (consume fuel resolve_next (st, w)))))
     = writes (trace w).
Proof.
  apply (consume_invariant
    (fun s s' : resolve_state * world => unwritten (snd s) (snd s'))
    resolve_next).
  - intros s. apply unwritten_refl.
  - intros a b c. apply unwritten_trans.
  - intros [st0 w0]. apply resolve_next_unwritten.
Qed.

End ReadOnly.

Section Get.
Context `{C : Collaborators}.

(** A turn of [get] fetches the block and decodes it as [_deserialize]
    does, with the format of the block's own CID. *)
Lemma get_next_eq (cid : CID) (rest : list CID) (w : world) :
  get_next (cid :: rest, w) =
  match this_bs_get cid w with
  | (Err e, w1) => (Err e, (rest, w1))
  | (Ok block, w1) =>
      match _deserialize block w1 with
      | (Ok node, w2) => (Ok (IValue node), (rest, w2))
      | (Err e, w2) => (Err e, (rest, w2))
      end
  end.
Proof.
  unfold get_next, _deserialize. unfold_monad. cbn.
  destruct (this_bs_get cid w) as [[block|e] w1]; [|reflexivity].
  destruct (_getFormat _ w1) as [[format|e] w2]; [|reflexivity].
  destruct (deserialize _ _) as [node|e]; reflexivity.
Qed.

Lemma get_next_done (w : world) : get_next ([], w) = (Ok IDone, ([], w)).
Proof. reflexivity. Qed.

Lemma read_in_order_length (cids : list CID) (nodes : list jsval) (w w' : world) :
  read_in_order cids w = (Ok nodes, w') ->
  List.length nodes = List.length cids.
Proof.
  revert nodes w. induction cids as [|c cids IH]; intros nodes w Hrun.
  - now injection Hrun as <- _.
  - cbn [read_in_order] in Hrun. unfold bind, ret in Hrun.
    destruct (this_bs_get c w) as [[block|e] w1]; [|discriminate].
    destruct (_deserialize block w1) as [[node|e] w2]; [|discriminate].
    destruct (read_in_order cids w2) as [[nodes'|e] w3] eqn:Hrest; [|discriminate].
    injection Hrun as <- <-. cbn. now rewrite (IH nodes' w2 Hrest).
Qed.

Lemma consume_get_prefix (pre rest : list CID) (nodes : list jsval)
    (w wk : world) (fuel : nat) :
  read_in_order pre w = (Ok nodes, wk) ->
  consume (List.length pre + fuel) get_next ((pre ++ rest)%list, w) =
  mkRun (nodes ++ yielded (consume fuel get_next (rest, wk)))%list
        (ended (consume fuel get_next (rest, wk)))
        (final (consume fuel get_next (rest, wk))).
Proof.
  revert nodes w. induction pre as [|c pre IH]; intros nodes w Hrun.
  - injection Hrun as <- <-. cbn [List.length Nat.add app].
    now destruct (consume fuel get_next (rest, w)).
  - cbn [read_in_order] in Hrun. unfold bind, ret in Hrun.
    cbn [List.length Nat.add app consume]. rewrite get_next_eq.
    destruct (this_bs_get c w) as [[block|e] w1]; [|discriminate].
    destruct (_deserialize block w1) as [[node|e] w2]; [|discriminate].
    destruct (read_in_order pre w2) as [[nodes'|e] w3] eqn:Hrest; [|discriminate].
    injection Hrun as <- <-. now rewrite (IH nodes' w2 Hrest).
Qed.

(** X15. Every block is there and decodes: [get] yields one node per CID, in
    the order of the CIDs, then finishes, having fetched and decoded the
    blocks one after the other. *)
Theorem get_yields_every_node
    (cids : list CID) (nodes : list jsval) (w w' : world) (fuel : nat) :
  read_in_order cids w = (Ok nodes, w') ->
  (List.length cids < fuel)%nat ->
  consume fuel get_next (get cids, w) = mkRun nodes Finished ([], w')
  /\ List.length nodes = List.length cids.
Proof.
  intros Hrun Hfuel. split; [|exact (read_in_order_length cids nodes w w' Hrun)].
  unfold get.
  replace fuel with (List.length cids + S (fuel - S (List.length cids)))%nat by lia.
  pose proof (consume_get_prefix cids [] nodes w w'
                (S (fuel - S (List.length cids))) Hrun) as Hpre.
  rewrite app_nil_r in Hpre. rewrite Hpre.
  cbn [consume]. rewrite get_next_done. cbn. now rewrite app_nil_r.
Qed.

(** X16. The blocks of [pre] are there and decode, and fetching or decoding
    the block of [bad] fails with [e]: [get] yields the nodes of [pre],
    in order, and ends with [e]; the CIDs of [post] are never
    fetched. *)
Theorem get_stops_at_first_failure
    (pre post : list CID) (bad : CID) (nodes : list jsval)
    (w wk wbad : world) (e : error) (fuel : nat) :
  read_in_order pre w = (Ok nodes, wk) ->
  (let* block := this_bs_get bad in _deserialize block) wk = (Err e, wbad) ->
  (List.length pre < fuel)%nat ->
  consume fuel get_next (get (pre ++ bad :: post)%list, w)
  = mkRun nodes (Failed e) (post, wbad)
  /\ List.length nodes = List.length pre.
Proof.
  intros Hpre Hbad Hfuel.
  split; [|exact (read_in_order_length pre nodes w wk Hpre)].
  unfold get.
  replace fuel with (List.length pre + S (fuel - S (List.length pre)))%nat by lia.
  rewrite (consume_get_prefix pre (bad :: post) nodes w wk _ Hpre).
  cbn [consume]. rewrite get_next_eq. unfold bind in Hbad.
  destruct (this_bs_get bad wk) as [[block|e0] w1].
  - destruct (_deserialize block w1) as [[node|e1] w2]; [discriminate|].
    injection Hbad as <- <-. cbn. now rewrite app_nil_r.
  - injection Hbad as <- <-. cbn. now rewrite app_nil_r.
Qed.

Lemma get_next_unwritten (cids : list CID) (w : world) :
  unwritten w (snd (snd (get_next (cids, w)))).
Proof.
  destruct cids as [|cid rest]; [apply unwritten_refl|].
  rewrite get_next_eq, this_bs_get_eq.
  pose proof (unwritten_get cid w) as Hw.
  destruct (bs_get cid (bs w)) as [block|e]; [|exact Hw].
  unfold _deserialize. unfold_monad.
  pose proof (_getFormat_unwritten (CodecName (cid_codec (block_cid block)))
                (record (EvGet cid) w)) as Hget.
  destruct (_getFormat _ _) as [[format|e] w2]; cbn [snd] in *.
  - destruct (deserialize _ _) as [node|e]; eapply unwritten_trans; eauto.
  - eapply unwritten_trans; eauto.
Qed.

(** X17. [get] only reads: the store is in the state it started in and no
    [put] or [delete] was asked of the block service. *)
Theorem get_only_reads (fuel : nat) (cids : list CID) (w : world) :
  bs (snd (final (consume fuel get_next (get cids, w)))) = bs w
  /\ writes (trace (snd (final (consume fuel get_next (get cids, w)))))
     = writes (trace w).
Proof.
  apply (consume_invariant
    (fun s s' : list CID * world => unwritten (snd s) (snd s')) get_next).
  - intros s. apply unwritten_refl.
  - intros a b c. apply unwritten_trans.
  - intros [cids0 w0]. apply get_next_unwritten.
Qed.

End Get.

Section ResolvePath.
Context `{C : Collaborators}.

Lemma resolve_finished_shape (fuel : nat) (st : resolve_state) (w : world) :
  ended (consume fuel resolve_next (st, w)) = Finished ->
  match r_cid st with
  | None =>
      yielded (consume fuel resolve_next (st, w)) = []
      /\ store_calls (trace (snd (final (consume fuel resolve_next (st, w)))))
         = store_calls (trace w)
  | Some c0 =>
      exists init lst,
        yielded (consume fuel resolve_next (st, w)) = (init ++ [lst])%list
        /\ Forall (fun s => isCID (value s) = true) init
        /\ isCID (value lst) = false
        /\ store_calls (trace (snd (final (consume fuel resolve_next (st, w)))))
           = (store_calls (trace w) ++ map EvGet (c0 :: cid_values init))%list
  end.
Proof.
  revert st w. induction fuel as [|fuel IH]; intros st w; [discriminate|].
  cbn [consume]. destruct (r_cid st) as [c0|] eqn:Hcid.
  2: { rewrite (resolve_next_done st w Hcid). cbn. auto. }
  rewrite (resolve_next_eq st w c0 Hcid).
  pose proof (_getFormat_untouched (CodecName (cid_codec c0)) w) as [_ Hcalls].
  destruct (_getFormat _ w) as [[format|e] w1]; cbn [snd] in Hcalls; [|discriminate].
  destruct (bs_get c0 (bs w1)) as [block|e]; [|discriminate].
  destruct (resolve_in_node _ _ _) as [result|e]; [|discriminate].
  destruct (convert_old_style_link _) as [v|e]; [|discriminate].
  cbn [yielded ended final]. intros Hfin.
  specialize (IH _ _ Hfin). cbn [r_cid] in IH.
  assert (Hlog : store_calls (trace (record (EvGet c0) w1))
                 = (store_calls (trace w) ++ [EvGet c0])%list).
  { cbn. now rewrite store_calls_app, Hcalls. }
  destruct v as [| |b|n|s|c1|fields|items].
  6: { destruct IH as (init & lst & Hy & Hall & Hlst & Htr).
       exists ({| remainderPath := remainderPath result; value := VCID c1 |} :: init), lst.
       rewrite Hy, Htr, Hlog. cbn. rewrite <- app_assoc.
       repeat split; auto. }
  all: destruct IH as [Hy Htr];
    exists []; eexists;
    rewrite Hy, Htr, Hlog; cbn;
    (split; [reflexivity|]); repeat split; auto.
Qed.

(** X10. A sequence of [resolve] that finishes has emitted at least one
    step; every step but the last has a CID for its value and the last
    has not; and the blocks fetched are, in this order, the root's and
    those of the CIDs emitted: the node a step was resolved in is the
    value of the step before. *)
Theorem resolve_fetches_along_links
    (c0 : CID) (path : string) (w : world) (fuel : nat) :
  ended (consume fuel resolve_next
           ({| r_cid := Some c0; r_path := path |}, w)) = Finished ->
  exists init lst,
    yielded (consume fuel resolve_next
               ({| r_cid := Some c0; r_path := path |}, w))
    = (init ++ [lst])%list
    /\ Forall (fun s => isCID (value s) = true) init
    /\ isCID (value lst) = false
    /\ store_calls (trace (snd (final (consume fuel resolve_next
                      ({| r_cid := Some c0; r_path := path |}, w)))))
       = (store_calls (trace w) ++ map EvGet (c0 :: cid_values init))%list.
Proof.
  intros Hfin.
  exact (resolve_finished_shape fuel {| r_cid := Some c0; r_path := path |} w Hfin).
Qed.

(** X11. A value that is a number, a boolean, an array, a string of any
    length but one, or a mapping whose keys are not just ["/"], is
    emitted as the codec gave it, and the sequence is done after it. *)
Theorem resolve_emits_plain_value
    (st : resolve_state) (w w1 : world) (cid : CID) (format : Format)
    (block : Block) (v : jsval) (rest : string) :
  r_cid st = Some cid ->
  _getFormat (CodecName (cid_codec cid)) w = (Ok format, w1) ->
  bs_get cid (bs w1) = Ok block ->
  resolve_in_node (resolver format) (block_data block) (r_path st)
  = Ok {| remainderPath := rest; value := v |} ->
  match v with
  | VBool _ | VNum _ | VArr _ => True
  | VStr s => String.length s <> 1%nat
  | VObj fields => map fst fields <> ["/"]
  | VUndefined | VNull | VCID _ => False
  end ->
  resolve_next (st, w)
  = (Ok (IValue {| remainderPath := rest; value := v |}),
     ({| r_cid := None; r_path := rest |}, record (EvGet cid) w1))
  /\ forall fuel,
       consume (S (S fuel)) resolve_next (st, w)
       = mkRun [{| remainderPath := rest; value := v |}] Finished
               ({| r_cid := None; r_path := rest |}, record (EvGet cid) w1).
Proof.
  intros Hcid Hformat Hblock Hresolve Hshape.
  assert (Hconv : convert_old_style_link v = Ok v).
  { apply convert_old_style_link_passes. destruct v; auto. }
  assert (Hcall : resolve_next (st, w)
    = (Ok (IValue {| remainderPath := rest; value := v |}),
       ({| r_cid := None; r_path := rest |}, record (EvGet cid) w1))).
  { rewrite (resolve_next_eq st w cid Hcid), Hformat, Hblock, Hresolve. cbn.
    rewrite Hconv. destruct v; try contradiction; reflexivity. }
  split; [exact Hcall|].
  intros fuel. rewrite (consume_same_call (S fuel) resolve_next _ _ Hcall).
  cbn [consume]. rewrite resolve_next_done by reflexivity. reflexivity.
Qed.

(** X14. [resolve] takes a mapping for a link only when ["/"] is its single
    key; [_maybeCID], which [tree] uses, takes any mapping with a ["/"]
    property.  A mapping with that property and further keys is plain
    data to the first and a link to the second. *)
Theorem link_detection_differs (fields : list (string * jsval)) (x : jsval) :
  assoc "/" fields = Some x ->
  x <> VUndefined ->
  List.length fields <> 1%nat ->
  convert_old_style_link (VObj fields) = Ok (VObj fields)
  /\ _maybeCID (VObj fields)
     = match CID_new x with Ok c => Ok (Some c) | Err e => Err e end.
Proof.
  intros Hx Hdef Hlen. split.
  - unfold convert_old_style_link. cbn. rewrite length_map.
    destruct (List.length fields =? 1)%nat eqn:E; [|reflexivity].
    apply Nat.eqb_eq in E. contradiction.
  - unfold _maybeCID. cbn. rewrite Hx. cbn.
    destruct x; try reflexivity. contradiction.
Qed.

End ResolvePath.

Section PutWrites.
Context `{C : Collaborators}.

Lemma assoc_absent (k : string) (fields : list (string * jsval)) :
  assoc k fields = None -> ~ In k (map fst fields).
Proof.
  induction fields as [|[k' v] fields IH]; cbn -[String.eqb]; [tauto|].
  destruct (String.eqb k k') eqn:E; [discriminate|].
  apply String.eqb_neq in E. intros Hk [Heq|Hin].
  - apply E. now symmetry.
  - exact (IH Hk Hin).
Qed.

Lemma field_merged (k : string) (fields d o : list (string * jsval)) :
  NoDup (map fst fields) ->
  mergeOptions d (VObj fields) = Ok o ->
  field k o = default (field k d) (assoc k fields).
Proof.
  intros Hnd [= <-]. unfold field.
  destruct (assoc k fields) as [v|] eqn:Hk.
  - now rewrite (assoc_merge_present k v fields d Hnd Hk).
  - now rewrite (assoc_merge_absent k fields d (assoc_absent k fields Hk)).
Qed.



Lemma put_cids_app (a b : list event) :
  put_cids (a ++ b) = (put_cids a ++ put_cids b)%list.
Proof. apply omap_app. Qed.

Lemma put_cids_store_calls (t : list event) :
  put_cids (store_calls t) = put_cids t.
Proof.
  unfold put_cids, store_calls.
  induction t as [|ev t IH]; [reflexivity|].
  destruct ev; cbn; rewrite ?IH; reflexivity.
Qed.

Lemma _getFormat_put_cids (codec : codec_arg) (w : world) :
  put_cids (trace (snd (_getFormat codec w))) = put_cids (trace w).
Proof.
  destruct (_getFormat_untouched codec w) as [_ Hcalls].
  now rewrite <- put_cids_store_calls, Hcalls, put_cids_store_calls.
Qed.

(** [_store] asks the block service for at most one [put], of a block
    with the CID it was given, and succeeds only if that [put] did. *)
Lemma _store_put_cids (cid : CID) (node : jsval) (w : world) :
  match _store cid node w with
  | (Ok _, w') => put_cids (trace w') = (put_cids (trace w) ++ [cid])%list
  | (Err e, w') =>
      put_cids (trace w') = put_cids (trace w)
      \/ put_cids (trace w') = (put_cids (trace w) ++ [cid])%list
  end.
Proof.
  unfold _store, this_bs_put. unfold_monad.
  pose proof (_getFormat_put_cids (CodecName (cid_codec cid)) w) as Hget.
  destruct (_getFormat _ w) as [[format|e] w1]; cbn [snd] in Hget; [|auto].
  destruct (serialize _ _) as [data|e]; cbn; [|auto].
  destruct (bs_put _ (bs w1)) as [[[]|e] s']; cbn;
    rewrite put_cids_app, Hget; cbn; auto.
Qed.

(** What [writing] asks of an iterator before its first turn: no
    options, or an options object whose [onlyHash], if it has one, is
    falsy. *)
Lemma writing_fresh_undefined (st : put_state) :
  p_options st = None -> p_userOptions st = VUndefined -> writing st.
Proof.
  intros Ho Hu. unfold writing. rewrite Ho, Hu. now intros f o [= <-].
Qed.

Lemma writing_fresh_object (st : put_state) (fields : list (string * jsval)) :
  p_options st = None ->
  p_userOptions st = VObj fields ->
  NoDup (map fst fields) ->
  truthy (default (VBool false) (assoc "onlyHash" fields)) = false ->
  writing st.
Proof.
  intros Ho Hu Hnd Hfalsy. unfold writing. rewrite Ho, Hu. intros f o Hm.
  now rewrite (field_merged "onlyHash" fields (defaultOptions f) o Hnd Hm).
Qed.

(** With a truthy [onlyHash] among options without repeated keys, the
    iterator is not [writing], whatever format is found. *)
Lemma writing_fresh_truthy (st : put_state) (fields : list (string * jsval))
    (f : Format) :
  p_options st = None ->
  p_userOptions st = VObj fields ->
  NoDup (map fst fields) ->
  truthy (default (VBool false) (assoc "onlyHash" fields)) = true ->
  ~ writing st.
Proof.
  intros Ho Hu Hnd Htruthy Hw. unfold writing in Hw. rewrite Ho, Hu in Hw.
  destruct (mergeOptions (defaultOptions f) (VObj fields)) as [o|e] eqn:Hm;
    [|discriminate].
  specialize (Hw f o Hm).
  rewrite (field_merged "onlyHash" fields (defaultOptions f) o Hnd Hm) in Hw.
  cbn in Hw. congruence.
Qed.

Lemma put_next_writing (st : put_state) (w : world) :
  writing st ->
  match put_next (st, w) with
  | (Ok IDone, (st', w')) => put_cids (trace w') = put_cids (trace w)
  | (Ok (IValue c), (st', w')) =>
      writing st' /\ put_cids (trace w') = (put_cids (trace w) ++ [c])%list
  | (Ok IAgain, _) => False
  | (Err e, (_, w')) =>
      put_cids (trace w') = put_cids (trace w)
      \/ exists c, put_cids (trace w') = (put_cids (trace w) ++ [c])%list
  end.
Proof.
  intros Hinv. destruct (p_nodes st) as [|node rest] eqn:Hn.
  { now rewrite (put_next_done st w Hn). }
  assert (Hloaded : forall st0 w0 o f,
    p_nodes st0 = node :: rest -> p_options st0 = Some o ->
    p_formatImpl st0 = Some f -> truthy (field "onlyHash" o) = false ->
    put_cids (trace w0) = put_cids (trace w) ->
    match put_next (st0, w0) with
    | (Ok IDone, _) => False
    | (Ok (IValue c), (st', w')) =>
        writing st' /\ put_cids (trace w') = (put_cids (trace w) ++ [c])%list
    | (Ok IAgain, _) => False
    | (Err e, (_, w')) =>
        put_cids (trace w') = put_cids (trace w)
        \/ exists c, put_cids (trace w') = (put_cids (trace w) ++ [c])%list
    end).
  { intros st0 w0 o f Hn0 Ho0 Hf0 Ht Hw.
    rewrite (put_next_loaded st0 w0 node rest o f Hn0 Ho0 Hf0), Ht.
    destruct (cid_of_node _ _ _) as [c|e]; [|auto].
    pose proof (_store_put_cids c node w0) as Hstore.
    destruct (_store c node w0) as [[[]|e] w']; rewrite Hw in Hstore.
    - split; [|exact Hstore]. unfold writing. cbn. now rewrite Ho0.
    - destruct Hstore; eauto. }
  unfold writing in Hinv. destruct (p_options st) as [o|] eqn:Ho.
  - destruct (p_formatImpl st) as [f|] eqn:Hf.
    + specialize (Hloaded st w o f Hn Ho Hf Hinv eq_refl).
      destruct (put_next (st, w)) as [[[|c|]|e] [st' w']]; tauto.
    + unfold put_next. unfold_monad. cbn. rewrite Hn, Ho. cbn. rewrite Ho, Hf.
      now left.
  - rewrite (put_next_first st w node rest Hn Ho).
    pose proof (_getFormat_put_cids (CodecNum (p_format st)) w) as Hget.
    destruct (_getFormat _ w) as [[f|e] w1]; cbn [snd] in Hget; [|auto].
    destruct (mergeOptions _ _) as [o|e] eqn:Hm; [|auto].
    pose proof (Hinv f o Hm) as Ht.
    specialize (Hloaded (set_options o (set_formatImpl f st)) w1 o f
                  Hn eq_refl eq_refl Ht Hget).
    destruct (put_next _) as [[[|c|]|e] [st' w']]; tauto.
Qed.

(** X19. Without a truthy [onlyHash] (none given, or one that is
    falsy), [put] writes what it yields: the CIDs of the blocks handed
    to the block service are, in order, the CIDs yielded, followed by
    one more only when the sequence ended in a failure (the write that
    failed); nothing written before is taken back. *)
Theorem put_writes_what_it_yields (st : put_state) (w : world) (fuel : nat) :
  writing st ->
  exists extra,
    put_cids (trace (snd (final (consume fuel put_next (st, w)))))
    = (put_cids (trace w) ++ yielded (consume fuel put_next (st, w)) ++ extra)%list
    /\ (extra = []
        \/ exists c e, extra = [c]
                       /\ ended (consume fuel put_next (st, w)) = Failed e).
Proof.
  revert st w. induction fuel as [|fuel IH]; intros st w Hinv.
  { exists []. cbn. rewrite app_nil_r. auto. }
  cbn [consume]. pose proof (put_next_writing st w Hinv) as Hstep.
  destruct (put_next (st, w)) as [[[|c|]|e] [st' w']];
    cbn [yielded ended final snd].
  - exists []. rewrite Hstep, app_nil_r. auto.
  - destruct Hstep as [Hinv' Hw].
    destruct (IH st' w' Hinv') as (extra & Htr & Hextra).
    exists extra. rewrite Htr, Hw, <- !app_assoc. auto.
  - contradiction.
  - destruct Hstep as [Hw | [c Hw]].
    + exists []. rewrite Hw, app_nil_r. auto.
    + exists [c]. rewrite Hw. cbn. split; [reflexivity|]. right. eauto.
Qed.

End PutWrites.

Section RoundTrip.
Context `{C : Collaborators}.

(** X21. [put] of one node, then [get] of the CID it yielded, gives the node
    back, when the format is registered, the CID the codec computes
    names that same codec, [deserialize] undoes [serialize] on the node,
    and the block service returns the block it has just been given. *)
Theorem put_then_get_round_trip
    (node : jsval) (n : Z) (f : Format) (c : CID) (data : bytes)
    (w : world) (s' : Store) :
  resolvers w !! n = Some f ->
  cid_of_node (util f) node (cidOptions_of (defaultOptions f)) = Ok c ->
  codec_number (CodecName (cid_codec c)) = Some n ->
  serialize (util f) node = Ok data ->
  deserialize (util f) data = Ok node ->
  bs_put {| block_data := data; block_cid := c |} (bs w) = (Ok tt, s') ->
  bs_get c s' = Ok {| block_data := data; block_cid := c |} ->
  exists st wput,
    put [node] (VNum n) VUndefined = Ok st
    /\ yielded (consume 2 put_next (st, w)) = [c]
    /\ ended (consume 2 put_next (st, w)) = Finished
    /\ snd (final (consume 2 put_next (st, w))) = wput
    /\ yielded (consume 2 get_next (get [c], wput)) = [node]
    /\ ended (consume 2 get_next (get [c], wput)) = Finished.
Proof.
  intros Hreg Hcid Hcodec Hser Hdes Hput Hget.
  set (b := {| block_data := data; block_cid := c |}) in *.
  set (wput := {| resolvers := resolvers w; bs := s';
                  trace := trace w ++ [EvPut b] |}).
  set (st := {| p_nodes := [node]; p_format := n; p_userOptions := VUndefined;
                p_options := None; p_formatImpl := None |}).
  assert (Hstore : _store c node w = (Ok tt, wput)).
  { unfold _store, this_bs_put. unfold_monad.
    rewrite (_getFormat_registered w _ n f Hcodec Hreg), Hser. cbn.
    fold b. now rewrite Hput. }
  assert (Hturn : put_next (st, w)
    = (Ok (IValue c),
       (set_nodes [] (set_options (defaultOptions f) (set_formatImpl f st)), wput))).
  { rewrite (put_next_first st w node [] eq_refl eq_refl). cbn [p_format st].
    rewrite (_getFormat_registered w (CodecNum n) n f eq_refl Hreg).
    change (mergeOptions (defaultOptions f) (p_userOptions st))
      with (Ok (A:=list (string * jsval)) (defaultOptions f)).
    cbv iota beta.
    rewrite (put_next_loaded
               (set_options (defaultOptions f) (set_formatImpl f st))
               w node [] (defaultOptions f) f eq_refl eq_refl eq_refl).
    rewrite Hcid. cbn. now rewrite Hstore. }
  assert (Hread : get_next ([c], wput) = (Ok (IValue node), ([], record (EvGet c) wput))).
  { rewrite get_next_eq, this_bs_get_eq. cbn [bs wput]. rewrite Hget.
    unfold _deserialize. unfold_monad. cbn [block_cid block_data b].
    rewrite (_getFormat_registered _ _ n f Hcodec) by exact Hreg.
    now rewrite Hdes. }
  exists st, wput. split; [reflexivity|].
  unfold get.
  rewrite (consume_same_call 1 put_next _ _ Hturn).
  rewrite (consume_same_call 1 get_next _ _ Hread).
  cbn [consume].
  rewrite put_next_done by reflexivity. rewrite get_next_done. cbn. auto.
Qed.

End RoundTrip.

Section RemoveAll.
Context `{C : Collaborators}.

(** X22. Every deletion succeeds: [remove] yields every CID, in the order of
    the array, and finishes with the array empty; the block service was
    asked for exactly one [delete] per CID, in that order, and for
    nothing else. *)
Theorem remove_yields_every_cid
    (cids : list CID) (w w' : world) (fuel : nat) :
  delete_in_order cids w = (Ok tt, w') ->
  (List.length cids < fuel)%nat ->
  consume fuel remove_next (remove cids, w) = mkRun cids Finished ([], w')
  /\ trace w' = (trace w ++ map EvDelete cids)%list.
Proof.
  intros Hrun Hfuel. split.
  - exact (remove_all cids w w' fuel Hrun Hfuel).
  - exact (delete_in_order_trace cids w w' Hrun).
Qed.

End RemoveAll.

Section TreeFlat.
Context `{C : Collaborators}.

Lemma tree_refill_eq (st : tree_state) (w : world) :
  tree_refill (st, w) =
  match t_treePaths st, t_queue st with
  | [], (cid, basePath) :: queue =>
      let st1 := {| t_cid := Some cid; t_treePaths := [];
                    t_block := t_block st; t_queue := queue;
                    t_basePath := Some basePath |} in
      match _getFormat (CodecName (cid_codec cid)) w with
      | (Err e, w1) => (Err e, (st1, w1))
      | (Ok format, w1) =>
          match bs_get cid (bs w1) with
          | Err e => (Err e, (st1, record (EvGet cid) w1))
          | Ok block =>
              match tree_of_node (resolver format) (block_data block) with
              | Err e =>
                  (Err e, ({| t_cid := Some cid; t_treePaths := [];
                              t_block := Some block; t_queue := queue;
                              t_basePath := Some basePath |},
                           record (EvGet cid) w1))
              | Ok paths =>
                  (Ok tt, ({| t_cid := Some cid; t_treePaths := paths;
                              t_block := Some block; t_queue := queue;
                              t_basePath := Some basePath |},
                           record (EvGet cid) w1))
              end
          end
      end
  | _, _ => (Ok tt, (st, w))
  end.
Proof.
  unfold tree_refill. unfold_monad. cbn.
  destruct (t_treePaths st) as [|seg buf] eqn:Hb; [|reflexivity].
  destruct (t_queue st) as [|[cid bp] queue]; [reflexivity|]. cbn.
  destruct (_getFormat _ w) as [[format|e] w1]; [|now rewrite Hb].
  rewrite this_bs_get_eq.
  destruct (bs_get cid (bs w1)) as [block|e]; [|now rewrite Hb]. cbn.
  destruct (tree_of_node _ _) as [paths|e]; now rewrite Hb.
Qed.

Lemma tree_emit_not_done (off : jsval) (p : string) : tree_emit off p <> IDone.
Proof.
  unfold tree_emit. destruct off; try discriminate.
  destruct (_ && _); discriminate.
Qed.

(** Without recursion, a candidate taken from the buffer costs no call
    of a collaborator. *)
Lemma tree_candidate_flat (options : list (string * jsval))
    (st : tree_state) (w : world) (seg : string) (buf : list string) :
  truthy (field "recursive" options) = false ->
  t_treePaths st = seg :: buf ->
  tree_candidate options (st, w)
  = (Ok (str_of (t_basePath st) ++ seg),
     ({| t_cid := t_cid st; t_treePaths := buf; t_block := t_block st;
         t_queue := t_queue st; t_basePath := t_basePath st |}, w)).
Proof.
  intros Hflat Hb. unfold tree_candidate. unfold bind at 1.
  rewrite tree_refill_eq, Hb. unfold_monad. cbn. now rewrite Hb, Hflat.
Qed.

Lemma consume_tree_buffer (off : jsval) (options : list (string * jsval))
    (bp : string) (buf : list string) :
  truthy (field "recursive" options) = false ->
  forall (st : tree_state) (w : world) (fuel : nat),
  t_treePaths st = buf -> t_queue st = [] -> t_basePath st = Some bp ->
  (List.length buf < fuel)%nat ->
  consume fuel (tree_next off options) (st, w)
  = mkRun (emitted off (map (String.append bp) buf)) Finished
          ({| t_cid := t_cid st; t_treePaths := []; t_block := t_block st;
              t_queue := []; t_basePath := Some bp |}, w).
Proof.
  intros Hflat. induction buf as [|seg buf IH]; intros st w fuel Hb Hq Hbp Hfuel;
    (destruct fuel as [|fuel]; [inversion Hfuel|]).
  - cbn [consume]. rewrite (tree_next_done off options st w Hb Hq).
    destruct st; cbn in *; now subst.
  - assert (Hmore : t_treePaths st <> [] \/ t_queue st <> [])
      by (left; rewrite Hb; discriminate).
    rewrite (consume_same_call fuel _ _ _ (tree_next_eq off options st w Hmore)).
    rewrite (tree_candidate_flat options st w seg buf Hflat Hb), Hbp.
    cbn [str_of default map emitted omap].
    assert (Hrest : consume fuel (tree_next off options)
      ({| t_cid := t_cid st; t_treePaths := buf; t_block := t_block st;
          t_queue := t_queue st; t_basePath := Some bp |}, w)
      = mkRun (emitted off (map (String.append bp) buf)) Finished
          ({| t_cid := t_cid st; t_treePaths := []; t_block := t_block st;
              t_queue := []; t_basePath := Some bp |}, w)).
    { cbn in Hfuel. apply Nat.succ_lt_mono in Hfuel.
      exact (IH {| t_cid := t_cid st; t_treePaths := buf; t_block := t_block st;
                   t_queue := t_queue st; t_basePath := Some bp |}
                w fuel eq_refl Hq eq_refl Hfuel). }
    pose proof (tree_emit_not_done off (bp ++ seg)) as Hnd.
    rewrite Hrest. unfold emitted. cbn.
    destruct (tree_emit off (bp ++ seg)) as [|s|];
      [contradiction|reflexivity|reflexivity].
Qed.

End TreeFlat.

Section TreeListing.
Context `{C : Collaborators}.

Lemma tree_init (cid : CID) (offsetPath userOptions : jsval) (cl : tree_closure) :
  tree cid offsetPath userOptions = Ok cl ->
  t_init cl = {| t_cid := Some cid; t_treePaths := []; t_block := None;
                 t_queue := [(cid, "")]; t_basePath := None |}.
Proof.
  unfold tree. destruct (typeof_is_object offsetPath);
    destruct (mergeOptions _ _); try discriminate; now intros [= <-].
Qed.

(** The first call: the root block is fetched, its paths fill the
    buffer, and the call goes on as on the filled buffer. *)
Lemma tree_next_first (off : jsval) (options : list (string * jsval))
    (cid : CID) (w w1 : world) (f : Format) (block : Block)
    (seg : string) (buf : list string) :
  _getFormat (CodecName (cid_codec cid)) w = (Ok f, w1) ->
  bs_get cid (bs w1) = Ok block ->
  tree_of_node (resolver f) (block_data block) = Ok (seg :: buf) ->
  tree_next off options
    ({| t_cid := Some cid; t_treePaths := []; t_block := None;
        t_queue := [(cid, "")]; t_basePath := None |}, w)
  = tree_next off options
      ({| t_cid := Some cid; t_treePaths := seg :: buf; t_block := Some block;
          t_queue := []; t_basePath := Some "" |}, record (EvGet cid) w1).
Proof.
  intros Hget Hblock Hpaths.
  rewrite !tree_next_eq by (cbn; auto; left; discriminate).
  unfold tree_candidate. unfold bind at 1 3.
  rewrite !tree_refill_eq. cbn [t_treePaths t_queue t_block].
  now rewrite Hget, Hblock, Hpaths.
Qed.

Lemma map_append_empty (paths : list string) :
  map (String.append "") paths = paths.
Proof. induction paths as [|p paths IH]; cbn; [reflexivity|now rewrite IH]. Qed.

Lemma emitted_cons (off : jsval) (p : string) (paths : list string) :
  emitted off (p :: paths)
  = match tree_emit off p with
    | IValue s => s :: emitted off paths
    | _ => emitted off paths
    end.
Proof. unfold emitted. cbn. now destruct (tree_emit off p). Qed.

Lemma emitted_all (paths : list string) :
  Forall (fun p => p <> "") paths -> emitted (VStr "") paths = paths.
Proof.
  induction 1 as [|p paths Hp _ IH]; [reflexivity|].
  rewrite emitted_cons, IH. destruct p; [contradiction|reflexivity].
Qed.

(** X23. Without recursion, [tree] fetches the root block once and goes
    through the paths its codec lists, in the codec's order: it yields
    what the offset path lets through of each and finishes.  Under the
    empty offset path and with no empty path in the list, that is the
    list itself. *)
Theorem tree_lists_child_paths
    (cid : CID) (offsetPath userOptions : jsval) (cl : tree_closure)
    (w w1 : world) (f : Format) (block : Block) (paths : list string)
    (fuel : nat) :
  tree cid offsetPath userOptions = Ok cl ->
  truthy (field "recursive" (t_options cl)) = false ->
  _getFormat (CodecName (cid_codec cid)) w = (Ok f, w1) ->
  bs_get cid (bs w1) = Ok block ->
  tree_of_node (resolver f) (block_data block) = Ok paths ->
  paths <> [] ->
  (List.length paths < fuel)%nat ->
  consume fuel (tree_next (t_offsetPath cl) (t_options cl)) (t_init cl, w)
  = mkRun (emitted (t_offsetPath cl) paths) Finished
          ({| t_cid := Some cid; t_treePaths := []; t_block := Some block;
              t_queue := []; t_basePath := Some "" |}, record (EvGet cid) w1)
  /\ (t_offsetPath cl = VStr "" -> Forall (fun p => p <> "") paths ->
      emitted (t_offsetPath cl) paths = paths).
Proof.
  intros Htree Hflat Hget Hblock Hpaths Hne Hfuel. split.
  2: { intros ->. apply emitted_all. }
  rewrite (tree_init cid offsetPath userOptions cl Htree).
  destruct paths as [|seg buf]; [contradiction|].
  destruct fuel as [|fuel]; [inversion Hfuel|].
  rewrite (consume_same_call fuel _ _ _
             (tree_next_first (t_offsetPath cl) (t_options cl)
                cid w w1 f block seg buf Hget Hblock Hpaths)).
  rewrite <- (consume_same_call fuel _ _ _ eq_refl).
  rewrite (consume_tree_buffer (t_offsetPath cl) (t_options cl) "" (seg :: buf)
             Hflat
             {| t_cid := Some cid; t_treePaths := seg :: buf;
                t_block := Some block; t_queue := []; t_basePath := Some "" |}
             (record (EvGet cid) w1) (S fuel) eq_refl eq_refl eq_refl Hfuel).
  now rewrite map_append_empty.
Qed.

(** X24. A node whose codec lists no path at all: the buffer is empty when
    [next] shifts it, the segment is [undefined], and [tree] emits the
    string ["undefined"] below the empty offset path before it
    finishes. *)
Theorem tree_of_node_without_paths
    (cid : CID) (userOptions : jsval) (cl : tree_closure)
    (w w1 : world) (f : Format) (block : Block) (fuel : nat) :
  tree cid (VStr "") userOptions = Ok cl ->
  truthy (field "recursive" (t_options cl)) = false ->
  _getFormat (CodecName (cid_codec cid)) w = (Ok f, w1) ->
  bs_get cid (bs w1) = Ok block ->
  tree_of_node (resolver f) (block_data block) = Ok [] ->
  consume (S (S fuel)) (tree_next (t_offsetPath cl) (t_options cl)) (t_init cl, w)
  = mkRun ["undefined"] Finished
          ({| t_cid := Some cid; t_treePaths := []; t_block := Some block;
              t_queue := []; t_basePath := Some "" |}, record (EvGet cid) w1).
Proof.
  intros Htree Hflat Hget Hblock Hpaths.
  rewrite (tree_init cid _ userOptions cl Htree).
  assert (Hoff : t_offsetPath cl = VStr "").
  { unfold tree in Htree. cbn in Htree.
    destruct (mergeOptions _ _); [|discriminate]. now injection Htree as <-. }
  rewrite Hoff.
  assert (Hcall : tree_next (VStr "") (t_options cl)
      ({| t_cid := Some cid; t_treePaths := []; t_block := None;
          t_queue := [(cid, "")]; t_basePath := None |}, w)
    = (Ok (IValue "undefined"),
       ({| t_cid := Some cid; t_treePaths := []; t_block := Some block;
           t_queue := []; t_basePath := Some "" |}, record (EvGet cid) w1))).
  { rewrite tree_next_eq by (right; discriminate).
    unfold tree_candidate. unfold bind at 1.
    rewrite tree_refill_eq. cbn [t_treePaths t_queue t_block].
    rewrite Hget, Hblock, Hpaths. unfold_monad. cbn. now rewrite Hflat. }
  rewrite (consume_same_call (S fuel) _ _ _ Hcall). cbn [consume].
  now rewrite tree_next_done.
Qed.

End TreeListing.

Section TreeReadOnly.
Context `{C : Collaborators}.

Lemma quiet_bind {I A B} (m : M (I * world) A) (k : A -> M (I * world) B) :
  quiet m -> (forall a, quiet (k a)) -> quiet (bind m k).
Proof.
  intros Hm Hk s. unfold bind. specialize (Hm s).
  destruct (m s) as [[a|e] s']; cbn [snd] in *; [|exact Hm].
  eapply unwritten_trans; [exact Hm|apply Hk].
Qed.

Lemma quietW_bind {A B} (m : M world A) (k : A -> M world B) :
  quietW m -> (forall a, quietW (k a)) -> quietW (bind m k).
Proof.
  intros Hm Hk w. unfold bind. specialize (Hm w).
  destruct (m w) as [[a|e] w']; cbn [snd] in *; [|exact Hm].
  eapply unwritten_trans; [exact Hm|apply Hk].
Qed.

Lemma quiet_liftW {I A} (m : M world A) : quietW m -> quiet (liftW (I:=I) m).
Proof.
  intros Hm [i w]. unfold liftW. specialize (Hm w).
  now destruct (m w) as [r w'].
Qed.

Lemma quiet_ret {I A} (a : A) : quiet (ret (S:=I * world) a).
Proof. intros s. apply unwritten_refl. Qed.

Lemma quiet_lift_result {I A} (r : result A) : quiet (lift_result (S:=I * world) r).
Proof. intros s. apply unwritten_refl. Qed.

Lemma quiet_get_it {I} : quiet (get_it (I:=I)).
Proof. intros s. apply unwritten_refl. Qed.

Lemma quiet_set_it {I} (f : I -> I) : quiet (set_it f).
Proof. intros [i w]. apply unwritten_refl. Qed.

Lemma quietW_lift_result {A} (r : result A) : quietW (lift_result (S:=world) r).
Proof. intros w. apply unwritten_refl. Qed.

Lemma quietW__getFormat (codec : codec_arg) : quietW (_getFormat codec).
Proof. intros w. apply _getFormat_unwritten. Qed.

Lemma quietW_this_bs_get (c : CID) : quietW (this_bs_get c).
Proof.
  intros w. rewrite this_bs_get_eq. apply unwritten_get.
Qed.

Lemma quietW_maybeRecurse (block : option Block) (treePath : option string) :
  quietW (maybeRecurse block treePath).
Proof.
  unfold maybeRecurse. destruct block as [block|];
    [|intros w; apply unwritten_refl].
  apply quietW_bind; [apply quietW__getFormat|]. intros format.
  apply quietW_bind; [apply quietW_lift_result|]. intros link.
  destruct (truthy link); [apply quietW_lift_result|].
  intros w. apply unwritten_refl.
Qed.

Lemma quiet_tree_refill : quiet tree_refill.
Proof.
  unfold tree_refill. apply quiet_bind; [apply quiet_get_it|]. intros st.
  destruct (t_treePaths st); [|apply quiet_ret].
  destruct (t_queue st) as [|[cid bp] queue]; [apply quiet_ret|].
  apply quiet_bind; [apply quiet_set_it|]. intros _.
  apply quiet_bind; [apply quiet_liftW, quietW__getFormat|]. intros format.
  apply quiet_bind; [apply quiet_liftW, quietW_this_bs_get|]. intros block.
  apply quiet_bind; [apply quiet_set_it|]. intros _.
  apply quiet_bind; [apply quiet_lift_result|]. intros paths.
  apply quiet_set_it.
Qed.

Lemma quiet_tree_next (off : jsval) (options : list (string * jsval)) :
  quiet (tree_next off options).
Proof.
  unfold tree_next. apply quiet_bind; [apply quiet_get_it|]. intros st.
  assert (Hgo : quiet (let* fullPath := tree_candidate options in
                       ret (tree_emit off fullPath))).
  { apply quiet_bind; [|intros; apply quiet_ret].
    unfold tree_candidate.
    apply quiet_bind; [apply quiet_tree_refill|]. intros _.
    apply quiet_bind; [apply quiet_get_it|]. intros st1.
    apply quiet_bind; [apply quiet_set_it|]. intros _.
    apply quiet_bind; [|intros; apply quiet_ret].
    destruct (truthy _); [|apply quiet_ret].
    unfold tree_follow.
    apply quiet_bind; [apply quiet_get_it|]. intros st2.
    apply quiet_bind; [apply quiet_liftW, quietW_maybeRecurse|]. intros cid.
    apply quiet_set_it. }
  destruct (t_treePaths st); [|exact Hgo].
  destruct (t_queue st); [apply quiet_ret|exact Hgo].
Qed.

(** X26. [tree] only reads, with or without recursion: the store is in the
    state it started in and no [put] or [delete] was asked of the block
    service. *)
Theorem tree_only_reads
    (off : jsval) (options : list (string * jsval)) (fuel : nat)
    (st : tree_state) (w : world) :
  bs (snd (final (consume fuel (tree_next off options) (st, w)))) = bs w
  /\ writes (trace (snd (final (consume fuel (tree_next off options) (st, w)))))
     = writes (trace w).
Proof.
  apply (consume_invariant
    (fun s s' : tree_state * world => unwritten (snd s) (snd s'))
    (tree_next off options)).
  - intros s. apply unwritten_refl.
  - intros a b c. apply unwritten_trans.
  - apply quiet_tree_next.
Qed.

End TreeReadOnly.

Section TreeRecursive.
Context `{C : Collaborators}.

(** Refilling from the queue, whatever the iterator held before. *)
Lemma tree_next_refilled (off : jsval) (options : list (string * jsval))
    (st : tree_state) (c : CID) (bp : string) (queue : list (CID * string))
    (w w1 : world) (f : Format) (block : Block)
    (seg : string) (buf : list string) :
  t_treePaths st = [] ->
  t_queue st = (c, bp) :: queue ->
  _getFormat (CodecName (cid_codec c)) w = (Ok f, w1) ->
  bs_get c (bs w1) = Ok block ->
  tree_of_node (resolver f) (block_data block) = Ok (seg :: buf) ->
  tree_next off options (st, w)
  = tree_next off options
      ({| t_cid := Some c; t_treePaths := seg :: buf; t_block := Some block;
          t_queue := queue; t_basePath := Some bp |}, record (EvGet c) w1).
Proof.
  intros Hb Hq Hget Hblock Hpaths.
  rewrite !tree_next_eq by (cbn; rewrite ?Hq; auto; left; discriminate).
  unfold tree_candidate. unfold bind at 1 3.
  rewrite !tree_refill_eq. cbn [t_treePaths t_queue t_block]. rewrite Hb, Hq.
  now rewrite Hget, Hblock, Hpaths.
Qed.

Lemma maybeRecurse_eq (block : Block) (treePath : option string)
    (w : world) (n : Z) (f : Format) :
  codec_number (CodecName (cid_codec (block_cid block))) = Some n ->
  resolvers w !! n = Some f ->
  maybeRecurse (Some block) treePath w =
  match isLink (resolver f) (block_data block) treePath with
  | Err e => (Err e, w)
  | Ok link => if truthy link then (_maybeCID link, w) else (Ok None, w)
  end.
Proof.
  intros Hcodec Hreg. unfold maybeRecurse. unfold_monad.
  rewrite (_getFormat_registered w _ n f Hcodec Hreg).
  destruct (isLink _ _ _) as [link|e]; [|reflexivity].
  now destruct (truthy link).
Qed.

(** With recursion, a segment of the buffer that [isLink] says is no
    link is passed on and nothing is queued. *)
Lemma tree_candidate_no_link (options : list (string * jsval))
    (st : tree_state) (w : world) (seg : string) (buf : list string)
    (block : Block) (n : Z) (f : Format) (link : jsval) :
  truthy (field "recursive" options) = true ->
  t_treePaths st = seg :: buf ->
  t_block st = Some block ->
  codec_number (CodecName (cid_codec (block_cid block))) = Some n ->
  resolvers w !! n = Some f ->
  isLink (resolver f) (block_data block) (Some seg) = Ok link ->
  truthy link = false ->
  tree_candidate options (st, w)
  = (Ok (str_of (t_basePath st) ++ seg),
     ({| t_cid := None; t_treePaths := buf; t_block := Some block;
         t_queue := t_queue st; t_basePath := t_basePath st |}, w)).
Proof.
  intros Hrec Hb Hblock Hcodec Hreg Hlink Hfalsy.
  unfold tree_candidate. unfold bind at 1.
  rewrite tree_refill_eq, Hb. unfold tree_follow. unfold_monad. cbn.
  rewrite Hb, Hrec. cbn [fst t_block head tail]. rewrite Hblock.
  rewrite (maybeRecurse_eq block (Some seg) w n f Hcodec Hreg), Hlink, Hfalsy.
  reflexivity.
Qed.

(** With recursion, a segment behind which [isLink] finds a link is
    passed on and the link is queued, under the segment's full path
    followed by a separator. *)
Lemma tree_candidate_link (options : list (string * jsval))
    (st : tree_state) (w : world) (seg : string) (buf : list string)
    (block : Block) (n : Z) (f : Format) (link : jsval) (target : CID) :
  truthy (field "recursive" options) = true ->
  t_treePaths st = seg :: buf ->
  t_block st = Some block ->
  codec_number (CodecName (cid_codec (block_cid block))) = Some n ->
  resolvers w !! n = Some f ->
  isLink (resolver f) (block_data block) (Some seg) = Ok link ->
  truthy link = true ->
  _maybeCID link = Ok (Some target) ->
  tree_candidate options (st, w)
  = (Ok (str_of (t_basePath st) ++ seg),
     ({| t_cid := Some target; t_treePaths := buf; t_block := Some block;
         t_queue := (t_queue st
                     ++ [(target, ((str_of (t_basePath st) ++ seg) ++ "/")%string)])%list;
         t_basePath := t_basePath st |}, w)).
Proof.
  intros Hrec Hb Hblock Hcodec Hreg Hlink Htruthy Hcid.
  unfold tree_candidate. unfold bind at 1.
  rewrite tree_refill_eq, Hb. unfold tree_follow. unfold_monad. cbn.
  rewrite Hb, Hrec. cbn [fst t_block head tail]. rewrite Hblock.
  rewrite (maybeRecurse_eq block (Some seg) w n f Hcodec Hreg), Hlink, Htruthy, Hcid.
  reflexivity.
Qed.

Lemma consume_tree_buffer_no_links (off : jsval) (options : list (string * jsval))
    (bp : string) (block : Block) (n : Z) (f : Format) (buf : list string) :
  truthy (field "recursive" options) = true ->
  codec_number (CodecName (cid_codec (block_cid block))) = Some n ->
  Forall (fun p => exists link,
            isLink (resolver f) (block_data block) (Some p) = Ok link
            /\ truthy link = false) buf ->
  forall (st : tree_state) (w : world) (fuel : nat),
  resolvers w !! n = Some f ->
  t_treePaths st = buf -> t_queue st = [] -> t_basePath st = Some bp ->
  t_block st = Some block ->
  (List.length buf < fuel)%nat ->
  yielded (consume fuel (tree_next off options) (st, w))
  = emitted off (map (String.append bp) buf)
  /\ ended (consume fuel (tree_next off options) (st, w)) = Finished
  /\ snd (final (consume fuel (tree_next off options) (st, w))) = w.
Proof.
  intros Hrec Hcodec Hall. induction Hall as [|seg buf (link & Hlink & Hfalsy) _ IH];
    intros st w fuel Hreg Hb Hq Hbp Hblock Hfuel;
    (destruct fuel as [|fuel]; [inversion Hfuel|]).
  - cbn [consume]. now rewrite (tree_next_done off options st w Hb Hq).
  - assert (Hmore : t_treePaths st <> [] \/ t_queue st <> [])
      by (left; rewrite Hb; discriminate).
    rewrite (consume_same_call fuel _ _ _ (tree_next_eq off options st w Hmore)).
    rewrite (tree_candidate_no_link options st w seg buf block n f link
               Hrec Hb Hblock Hcodec Hreg Hlink Hfalsy), Hbp, Hq.
    cbn in Hfuel. apply Nat.succ_lt_mono in Hfuel.
    destruct (IH {| t_cid := None; t_treePaths := buf; t_block := Some block;
                    t_queue := []; t_basePath := Some bp |}
                 w fuel Hreg eq_refl eq_refl eq_refl eq_refl Hfuel)
      as (Hy & He & Hw).
    pose proof (tree_emit_not_done off (bp ++ seg)) as Hnd.
    cbn [map str_of default]. change (id bp) with bp.
    rewrite (emitted_cons off (bp ++ seg)).
    destruct (tree_emit off (bp ++ seg)) as [|s|]; [contradiction| |];
      cbn [yielded ended final]; rewrite Hy; auto.
Qed.

(** X25. Recursion across one link.  The root lists the single path [l],
    which is a link to a child; the child lists [ps], none of them a
    link; one format, registered, decodes both.  [tree] yields [l],
    then every path of the child behind [l] and a separator, in the
    child's order, and finishes, having fetched the root and then the
    child. *)
Theorem tree_recursive_one_link
    (options : list (string * jsval)) (n : Z) (f : Format)
    (rc cc : CID) (rb cb : Block) (l : string) (ps : list string)
    (link : jsval) (w : world) (fuel : nat) :
  truthy (field "recursive" options) = true ->
  resolvers w !! n = Some f ->
  codec_number (CodecName (cid_codec rc)) = Some n ->
  codec_number (CodecName (cid_codec cc)) = Some n ->
  codec_number (CodecName (cid_codec (block_cid rb))) = Some n ->
  codec_number (CodecName (cid_codec (block_cid cb))) = Some n ->
  bs_get rc (bs w) = Ok rb ->
  bs_get cc (bs w) = Ok cb ->
  tree_of_node (resolver f) (block_data rb) = Ok [l] ->
  isLink (resolver f) (block_data rb) (Some l) = Ok link ->
  truthy link = true ->
  _maybeCID link = Ok (Some cc) ->
  tree_of_node (resolver f) (block_data cb) = Ok ps ->
  ps <> [] ->
  Forall (fun p => exists v,
            isLink (resolver f) (block_data cb) (Some p) = Ok v
            /\ truthy v = false) ps ->
  (List.length ps + 2 < fuel)%nat ->
  yielded (consume fuel (tree_next (VStr "") options)
             ({| t_cid := Some rc; t_treePaths := []; t_block := None;
                 t_queue := [(rc, "")]; t_basePath := None |}, w))
  = emitted (VStr "") (l :: map (String.append (l ++ "/")) ps)
  /\ ended (consume fuel (tree_next (VStr "") options)
             ({| t_cid := Some rc; t_treePaths := []; t_block := None;
                 t_queue := [(rc, "")]; t_basePath := None |}, w))
     = Finished
  /\ trace (snd (final (consume fuel (tree_next (VStr "") options)
             ({| t_cid := Some rc; t_treePaths := []; t_block := None;
                 t_queue := [(rc, "")]; t_basePath := None |}, w))))
     = (trace w ++ [EvGet rc; EvGet cc])%list.
Proof.
  intros Hrec Hreg Hrc Hcc Hrb Hcb Hroot Hchild Hl Hlink Htruthy Hcid Hps Hne
         Hnolinks Hfuel.
  destruct ps as [|seg buf]; [contradiction|].
  destruct fuel as [|[|fuel]]; [inversion Hfuel|cbn in Hfuel; lia|].
  set (w1 := record (EvGet rc) w).
  set (w2 := record (EvGet cc) w1).
  (* first call: the root is loaded and its link is queued *)
  rewrite (consume_same_call (S fuel) _ _ _
             (tree_next_refilled (VStr "") options
                {| t_cid := Some rc; t_treePaths := []; t_block := None;
                   t_queue := [(rc, "")]; t_basePath := None |}
                rc "" [] w w f rb l []
                eq_refl eq_refl
                (_getFormat_registered w _ n f Hrc Hreg) Hroot Hl)).
  fold w1.
  rewrite (tree_next_eq (VStr "") options _ w1) by (left; discriminate).
  rewrite (tree_candidate_link options
             {| t_cid := Some rc; t_treePaths := [l]; t_block := Some rb;
                t_queue := []; t_basePath := Some "" |}
             w1 l [] rb n f link cc
             Hrec eq_refl eq_refl Hrb Hreg Hlink Htruthy Hcid).
  cbn [t_basePath t_queue str_of default app].
  change (id "" ++ l) with l.
  (* second call: the child is loaded; its paths follow *)
  assert (Hrest :
    yielded (consume (S fuel) (tree_next (VStr "") options)
      ({| t_cid := Some cc; t_treePaths := []; t_block := Some rb;
          t_queue := [(cc, l ++ "/")]; t_basePath := Some "" |}, w1))
    = emitted (VStr "") (map (String.append (l ++ "/")) (seg :: buf))
    /\ ended (consume (S fuel) (tree_next (VStr "") options)
      ({| t_cid := Some cc; t_treePaths := []; t_block := Some rb;
          t_queue := [(cc, l ++ "/")]; t_basePath := Some "" |}, w1))
       = Finished
    /\ snd (final (consume (S fuel) (tree_next (VStr "") options)
      ({| t_cid := Some cc; t_treePaths := []; t_block := Some rb;
          t_queue := [(cc, l ++ "/")]; t_basePath := Some "" |}, w1)))
       = w2).
  { rewrite (consume_same_call fuel _ _ _
               (tree_next_refilled (VStr "") options
                  {| t_cid := Some cc; t_treePaths := []; t_block := Some rb;
                     t_queue := [(cc, l ++ "/")]; t_basePath := Some "" |}
                  cc (l ++ "/") [] w1 w1 f cb
                  seg buf eq_refl eq_refl
                  (_getFormat_registered w1 _ n f Hcc Hreg) Hchild Hps)).
    rewrite <- (consume_same_call fuel _ _ _ eq_refl). fold w2.
    apply (consume_tree_buffer_no_links (VStr "") options (l ++ "/") cb n f
             (seg :: buf) Hrec Hcb Hnolinks
             {| t_cid := Some cc; t_treePaths := seg :: buf; t_block := Some cb;
                t_queue := []; t_basePath := Some (l ++ "/") |}
             w2 (S fuel) Hreg eq_refl eq_refl eq_refl eq_refl).
    cbn in Hfuel |- *. lia. }
  destruct Hrest as (Hy & He & Hw).
  pose proof (tree_emit_not_done (VStr "") l) as Hnd.
  rewrite (emitted_cons (VStr "") l).
  destruct (tree_emit (VStr "") l) as [|s|]; [contradiction| |];
    cbn [yielded ended final]; rewrite Hy, He, Hw;
    (split; [reflexivity|]); (split; [reflexivity|]);
    subst w2 w1; cbn; now rewrite <- app_assoc.
Qed.

End TreeRecursive.

(** * A codec that is neither registered nor loadable *)

Section UnknownCodec.
Context `{C : Collaborators}.

Lemma _getFormat_miss (w : world) (codec : codec_arg) :
  options_loadFormat = None ->
  codec_number codec ≫= (fun c => resolvers w !! c) = None ->
  _getFormat codec w
  = (Err (NoResolverFound (codec_number codec)),
     record (EvLoad (codec_number codec)) w).
Proof.
  intros Hload Hmiss. unfold _getFormat, this_loadFormat. unfold_monad.
  rewrite Hmiss, Hload. reflexivity.
Qed.

Lemma store_calls_load (codec : option Z) (w : world) :
  store_calls (trace (record (EvLoad codec) w)) = store_calls (trace w).
Proof. cbn. rewrite store_calls_app. cbn. apply app_nil_r. Qed.

(** X27. [resolve] and [tree] look the format up before they ask the block
    service for anything: on a CID whose codec is not registered and
    cannot be loaded, the first call fails with "No resolver found",
    nothing is yielded, and the block service has not been called. *)
Theorem unknown_codec_fails_before_fetch
    (c : CID) (path : string) (off : jsval) (options : list (string * jsval))
    (w : world) (fuel : nat) :
  options_loadFormat = None ->
  codec_number (CodecName (cid_codec c)) ≫= (fun n => resolvers w !! n) = None ->
  consume (S fuel) resolve_next ({| r_cid := Some c; r_path := path |}, w)
  = mkRun [] (Failed (NoResolverFound (codec_number (CodecName (cid_codec c)))))
          ({| r_cid := Some c; r_path := path |},
           record (EvLoad (codec_number (CodecName (cid_codec c)))) w)
  /\ consume (S fuel) (tree_next off options)
       ({| t_cid := Some c; t_treePaths := []; t_block := None;
           t_queue := [(c, "")]; t_basePath := None |}, w)
     = mkRun [] (Failed (NoResolverFound (codec_number (CodecName (cid_codec c)))))
             ({| t_cid := Some c; t_treePaths := []; t_block := None;
                 t_queue := []; t_basePath := Some "" |},
              record (EvLoad (codec_number (CodecName (cid_codec c)))) w)
  /\ store_calls
       (trace (record (EvLoad (codec_number (CodecName (cid_codec c)))) w))
     = store_calls (trace w).
Proof.
  intros Hload Hmiss.
  pose proof (_getFormat_miss w _ Hload Hmiss) as Hget.
  split; [|split; [|apply store_calls_load]].
  - assert (Hcall : resolve_next ({| r_cid := Some c; r_path := path |}, w)
      = (Err (NoResolverFound (codec_number (CodecName (cid_codec c)))),
         ({| r_cid := Some c; r_path := path |},
          record (EvLoad (codec_number (CodecName (cid_codec c)))) w))).
    { rewrite (resolve_next_eq {| r_cid := Some c; r_path := path |} w c eq_refl).
      now rewrite Hget. }
    now rewrite (consume_same_call fuel resolve_next _ _ Hcall).
  - assert (Hcall : tree_next off options
        ({| t_cid := Some c; t_treePaths := []; t_block := None;
            t_queue := [(c, "")]; t_basePath := None |}, w)
      = (Err (NoResolverFound (codec_number (CodecName (cid_codec c)))),
         ({| t_cid := Some c; t_treePaths := []; t_block := None;
             t_queue := []; t_basePath := Some "" |},
          record (EvLoad (codec_number (CodecName (cid_codec c)))) w))).
    { rewrite tree_next_eq by (right; discriminate).
      unfold tree_candidate. unfold bind at 1.
      rewrite tree_refill_eq. cbn [t_treePaths t_queue t_block].
      now rewrite Hget. }
    now rewrite (consume_same_call fuel (tree_next off options) _ _ Hcall).
Qed.

(** X28. [get] asks the block service first and looks the format up under
    the codec of the block that came back: with that codec neither
    registered nor loadable, the block has been fetched when the call
    fails with "No resolver found", and the CIDs after it are never
    asked for. *)
Theorem get_unknown_codec_fetches_first
    (c : CID) (rest : list CID) (block : Block) (w : world) (fuel : nat) :
  options_loadFormat = None ->
  bs_get c (bs w) = Ok block ->
  codec_number (CodecName (cid_codec (block_cid block)))
    ≫= (fun n => resolvers w !! n) = None ->
  yielded (consume (S fuel) get_next (get (c :: rest), w)) = []
  /\ ended (consume (S fuel) get_next (get (c :: rest), w))
     = Failed (NoResolverFound
                 (codec_number (CodecName (cid_codec (block_cid block)))))
  /\ fst (final (consume (S fuel) get_next (get (c :: rest), w))) = rest
  /\ store_calls (trace (snd (final (consume (S fuel) get_next
                                       (get (c :: rest), w)))))
     = (store_calls (trace w) ++ [EvGet c])%list.
Proof.
  intros Hload Hblock Hmiss. unfold get.
  assert (Hcall : get_next (c :: rest, w)
    = (Err (NoResolverFound
              (codec_number (CodecName (cid_codec (block_cid block))))),
       (rest, record (EvLoad (codec_number
                                (CodecName (cid_codec (block_cid block)))))
                (record (EvGet c) w)))).
  { rewrite get_next_eq, this_bs_get_eq, Hblock.
    unfold _deserialize. unfold bind at 1.
    now rewrite (_getFormat_miss (record (EvGet c) w) _ Hload Hmiss). }
  rewrite (consume_same_call fuel get_next _ _ Hcall).
  cbn [yielded ended final fst snd].
  rewrite store_calls_load. cbn. rewrite store_calls_app.
  repeat split; reflexivity.
Qed.

(** X29. [put] looks its format up when the first node is pulled, not when
    it is called: with a format that is neither registered nor loadable
    the call of [put] succeeds; without nodes the sequence ends cleanly
    and the loader is never asked; with a node the first pull fails with
    "No resolver found", no CID is yielded and nothing is written. *)
Theorem put_unknown_format_fails_at_first_node
    (nodes : list jsval) (n : Z) (userOptions : jsval) (w : world) (fuel : nat) :
  options_loadFormat = None ->
  resolvers w !! n = None ->
  exists st,
    put nodes (VNum n) userOptions = Ok st
    /\ consume (S fuel) put_next (st, w)
       = match nodes with
         | [] => mkRun [] Finished (st, w)
         | node :: rest =>
             mkRun [] (Failed (NoResolverFound (Some n)))
                   (set_nodes rest st, record (EvLoad (Some n)) w)
         end.
Proof.
  intros Hload Hmiss. eexists. split; [reflexivity|].
  destruct nodes as [|node rest].
  - now rewrite (consume_same_call fuel put_next _ _
                   (put_next_done {| p_nodes := []; p_format := n;
                                     p_userOptions := userOptions;
                                     p_options := None; p_formatImpl := None |}
                                  w eq_refl)).
  - set (st := {| p_nodes := node :: rest; p_format := n;
                  p_userOptions := userOptions;
                  p_options := None; p_formatImpl := None |}).
    assert (Hcall : put_next (st, w)
      = (Err (NoResolverFound (Some n)),
         (set_nodes rest st, record (EvLoad (Some n)) w))).
    { rewrite (put_next_first st w node rest eq_refl eq_refl).
      cbn [p_format st].
      now rewrite (_getFormat_miss w (CodecNum n) Hload Hmiss). }
    now rewrite (consume_same_call fuel put_next _ _ Hcall).
Qed.

End UnknownCodec.

(** * Which format serializes *)

Section PutSerializes.
Context `{C : Collaborators}.

(** X20. The [format] argument of [put] picks the format that computes the
    CID; the bytes handed to the block service are serialized by the
    format registered under the codec that CID names, which need not be
    the same. *)
Theorem put_serializes_with_codec_of_cid
    (node : jsval) (n m : Z) (f g : Format) (c : CID) (data : bytes) (w : world) :
  resolvers w !! n = Some f ->
  cid_of_node (util f) node (cidOptions_of (defaultOptions f)) = Ok c ->
  codec_number (CodecName (cid_codec c)) = Some m ->
  resolvers w !! m = Some g ->
  serialize (util g) node = Ok data ->
  exists st,
    put [node] (VNum n) VUndefined = Ok st
    /\ trace (snd (snd (put_next (st, w))))
       = (trace w ++ [EvPut {| block_data := data; block_cid := c |}])%list
    /\ bs (snd (snd (put_next (st, w))))
       = snd (bs_put {| block_data := data; block_cid := c |} (bs w)).
Proof.
  intros Hreg Hcid Hcodec Hg Hser.
  set (b := {| block_data := data; block_cid := c |}).
  set (st := {| p_nodes := [node]; p_format := n; p_userOptions := VUndefined;
                p_options := None; p_formatImpl := None |}).
  assert (Hstore : _store c node w
    = (fst (bs_put b (bs w)),
       {| resolvers := resolvers w; bs := snd (bs_put b (bs w));
          trace := trace w ++ [EvPut b] |})).
  { unfold _store, this_bs_put. unfold_monad.
    rewrite (_getFormat_registered w _ m g Hcodec Hg), Hser. cbn.
    fold b. now destruct (bs_put b (bs w)). }
  exists st. split; [reflexivity|].
  rewrite (put_next_first st w node [] eq_refl eq_refl). cbn [p_format st].
  rewrite (_getFormat_registered w (CodecNum n) n f eq_refl Hreg).
  change (mergeOptions (defaultOptions f) (p_userOptions st))
    with (Ok (A:=list (string * jsval)) (defaultOptions f)).
  cbv iota beta.
  rewrite (put_next_loaded
             (set_options (defaultOptions f) (set_formatImpl f st))
             w node [] (defaultOptions f) f eq_refl eq_refl eq_refl).
  rewrite Hcid. cbn. rewrite Hstore.
  destruct (fst (bs_put b (bs w))) as [[]|e]; cbn; auto.
Qed.

End PutSerializes.

(** * The further properties on the toy codec *)

(** dag-cbor registered on an empty resolver and removed again. *)
Lemma addFormat_removeFormat_round_trip_witness :
  (addFormat (C:=static) dagCbor ;; removeFormat (C:=static) 113)
    (empty (C:=static) blocks)
  = (Ok tt, empty (C:=static) blocks).
Proof.
  exact (addFormat_removeFormat_round_trip (C:=static) dagCbor 113
           (empty (C:=static) blocks) eq_refl eq_refl).
Defined.

(** dag-cbor replaced by the codec with native links. *)
Lemma removeFormat_then_addFormat_witness :
  fst ((removeFormat (C:=static) 113 ;; addFormat (C:=static) dagCborNative)
         registered) = Ok tt
  /\ resolvers (snd ((removeFormat (C:=static) 113 ;;
                      addFormat (C:=static) dagCborNative) registered)) !! 113
     = Some (registry_entry dagCborNative).
Proof.
  refine ((fun H => conj (proj1 H) (proj1 (proj2 H)))
            (removeFormat_then_addFormat (C:=static) dagCborNative 113
               registered eq_refl)).
Defined.

(** dag-cbor registered and looked up by the name its CIDs carry. *)
Lemma addFormat_then__getFormat_witness :
  fst ((addFormat (C:=static) dagCbor ;;
        _getFormat (C:=static) (CodecName "dag-cbor"))
         (empty (C:=static) blocks))
  = Ok (registry_entry dagCbor).
Proof.
  refine (proj1 (addFormat_then__getFormat (C:=static) dagCbor 113
                   (CodecName "dag-cbor") (empty (C:=static) blocks)
                   eq_refl eq_refl _)).
  vm_compute. reflexivity.
Defined.

(** The loader that answers dag-pb with dag-cbor: the first lookup of
    dag-pb succeeds, the second fails. *)
Lemma _getFormat_loader_other_codec_witness :
  fst (_getFormat (C:=misloading) (CodecNum 112) (empty (C:=misloading) blocks))
  = Ok dagCbor
  /\ fst (_getFormat (C:=misloading) (CodecNum 112)
            (snd (_getFormat (C:=misloading) (CodecNum 112)
                    (empty (C:=misloading) blocks))))
     = Err (ResolverExists 113).
Proof.
  refine ((fun H => conj (proj1 H) (proj1 (proj2 (proj2 (proj2 H)))))
            (_getFormat_loader_other_codec (C:=misloading)
               (empty (C:=misloading) blocks) (CodecNum 112) _ dagCbor 112 113
               eq_refl eq_refl eq_refl eq_refl _ eq_refl eq_refl)).
  discriminate.
Defined.

(** dag-pb looked up on the resolver that has dag-cbor and no loader. *)
Lemma _getFormat_no_loader_witness :
  fst (_getFormat (C:=static) (CodecName "dag-pb") registered)
  = Err (NoResolverFound (Some 112)).
Proof.
  refine (proj1 (_getFormat_no_loader (C:=static) registered
                   (CodecName "dag-pb") eq_refl _)).
  vm_compute. reflexivity.
Defined.

(** [new IPLDResolver({ blockService, formats: [dagCbor] })]. *)
Lemma constructor_registers_formats_witness :
  exists w : @world static,
    constructor (C:=static) [] (Some blocks) (Some [dagCbor]) = Ok w
    /\ bs w = blocks /\ trace w = []
    /\ Forall2 (fun f c => resolvers w !! c = Some (registry_entry f))
               [dagCbor] [113]
    /\ forall c, ~ In c [113] -> resolvers w !! c = None.
Proof.
  apply (constructor_registers_formats (C:=static) [] [dagCbor] [113] blocks).
  - repeat constructor.
  - repeat constructor. cbn. intros Hin. inversion Hin.
Defined.

(** [new IPLDResolver({ blockService, formats: [dagCbor, dagCborNative] })]:
    both formats are dag-cbor. *)
Lemma constructor_refuses_duplicates_witness :
  exists e,
    constructor (C:=static) [] (Some blocks) (Some [dagCbor; dagCborNative])
    = Err e.
Proof.
  apply (constructor_refuses_duplicates (C:=static) [] [dagCbor; dagCborNative]
           blocks 0%nat 1%nat dagCbor dagCborNative 113).
  - reflexivity.
  - reflexivity.
  - discriminate.
  - reflexivity.
  - reflexivity.
Defined.

(** Both blocks of the store, read back in the order asked for. *)
Lemma get_yields_every_node_witness :
  consume 5 (get_next (C:=static)) (get [root; leaf], registered)
  = mkRun [VStr "root"; VStr "leaf"] Finished
          ([], snd (read_in_order (C:=static) [root; leaf] registered)).
Proof.
  refine (proj1 (get_yields_every_node (C:=static) [root; leaf]
                   [VStr "root"; VStr "leaf"] registered
                   (snd (read_in_order (C:=static) [root; leaf] registered))
                   5%nat _ _)).
  - vm_compute. reflexivity.
  - cbn. lia.
Defined.

(** A CID with no block between two that have one: the root is
    yielded, the run fails, and the leaf is never asked for. *)
Lemma get_stops_at_first_failure_witness :
  consume 5 (get_next (C:=static)) (get [root; gone; leaf], registered)
  = mkRun [VStr "root"] (Failed (ExtError "not found"))
          ([leaf],
           snd (this_bs_get (C:=static) gone
                  (snd (read_in_order (C:=static) [root] registered)))).
Proof.
  refine (proj1 (get_stops_at_first_failure (C:=static) [root] [leaf] gone
                   [VStr "root"] registered
                   (snd (read_in_order (C:=static) [root] registered))
                   (snd (this_bs_get (C:=static) gone
                           (snd (read_in_order (C:=static) [root] registered))))
                   (ExtError "not found") 5%nat _ _ _)).
  - vm_compute. reflexivity.
  - vm_compute. reflexivity.
  - cbn. lia.
Defined.

(** Resolving [a] from the root: one link, two blocks fetched. *)
Lemma resolve_fetches_along_links_witness :
  exists init lst,
    yielded (consume 5 (resolve_next (C:=static))
               ({| r_cid := Some root; r_path := "a" |}, registered))
    = (init ++ [lst])%list
    /\ Forall (fun s => isCID (value s) = true) init
    /\ isCID (value lst) = false
    /\ store_calls (trace (snd (final (consume 5 (resolve_next (C:=static))
                      ({| r_cid := Some root; r_path := "a" |}, registered)))))
       = (store_calls (trace registered)
            ++ map EvGet (root :: cid_values init))%list.
Proof.
  apply (resolve_fetches_along_links (C:=static) root "a" registered 5%nat).
  vm_compute. reflexivity.
Defined.

(** The leaf resolves to its own bytes, a string of four characters. *)
Lemma resolve_emits_plain_value_witness :
  resolve_next (C:=static) ({| r_cid := Some leaf; r_path := "" |}, registered)
  = (Ok (IValue {| remainderPath := ""; value := VStr "leaf" |}),
     ({| r_cid := None; r_path := "" |}, record (EvGet leaf) registered)).
Proof.
  refine (proj1 (resolve_emits_plain_value (C:=static)
                   {| r_cid := Some leaf; r_path := "" |} registered registered
                   leaf (registry_entry dagCbor)
                   {| block_data := "leaf"; block_cid := leaf |}
                   (VStr "leaf") "" eq_refl _ eq_refl eq_refl _)).
  - vm_compute. reflexivity.
  - cbn. discriminate.
Defined.

(** A link object that carries a second key. *)
Lemma link_detection_differs_witness :
  convert_old_style_link (C:=static)
    (VObj [("/", VStr "leaf"); ("size", VNum 3)])
  = Ok (VObj [("/", VStr "leaf"); ("size", VNum 3)])
  /\ _maybeCID (C:=static) (VObj [("/", VStr "leaf"); ("size", VNum 3)])
     = Ok (Some leaf).
Proof.
  refine (link_detection_differs (C:=static)
            [("/", VStr "leaf"); ("size", VNum 3)] (VStr "leaf") eq_refl _ _).
  - discriminate.
  - cbn. discriminate.
Defined.

(** The old style link [{"/": 5}]. *)
Lemma resolve_old_style_link_invalid_witness :
  resolve_next (C:=static)
    ({| r_cid := Some root; r_path := "a" |}, registered_broken)
  = (Err InvalidCID,
     ({| r_cid := Some root; r_path := "" |},
      record (EvGet root) registered_broken)).
Proof.
  refine (resolve_old_style_link_invalid (C:=static)
            {| r_cid := Some root; r_path := "a" |}
            registered_broken registered_broken root
            (registry_entry dagCborBroken)
            {| block_data := "root"; block_cid := root |}
            (VNum 5) "" InvalidCID eq_refl _ eq_refl eq_refl eq_refl).
  vm_compute. reflexivity.
Defined.


(** Two nodes stored with [{ onlyHash: false }]. *)
Lemma put_writes_what_it_yields_witness :
  exists extra,
    put_cids (trace (snd (final (consume 5 (put_next (C:=static))
      ({| p_nodes := [VStr "n1"; VStr "n2"]; p_format := 113;
          p_userOptions := VObj [("onlyHash", VBool false)];
          p_options := None; p_formatImpl := None |}, registered)))))
    = (put_cids (trace registered)
       ++ yielded (consume 5 (put_next (C:=static))
            ({| p_nodes := [VStr "n1"; VStr "n2"]; p_format := 113;
                p_userOptions := VObj [("onlyHash", VBool false)];
                p_options := None; p_formatImpl := None |}, registered))
       ++ extra)%list
    /\ (extra = []
        \/ exists c e, extra = [c]
             /\ ended (consume 5 (put_next (C:=static))
                  ({| p_nodes := [VStr "n1"; VStr "n2"]; p_format := 113;
                      p_userOptions := VObj [("onlyHash", VBool false)];
                      p_options := None; p_formatImpl := None |}, registered))
                = Failed e).
Proof.
  apply (put_writes_what_it_yields (C:=static)
           {| p_nodes := [VStr "n1"; VStr "n2"]; p_format := 113;
              p_userOptions := VObj [("onlyHash", VBool false)];
              p_options := None; p_formatImpl := None |} registered 5%nat).
  cbn. intros f o H. injection H as <-. reflexivity.
Defined.

(** The run behind it: both CIDs yielded, both blocks written. *)
Example put_onlyHash_false_run :
  let r := consume 5 (put_next (C:=static))
     ({| p_nodes := [VStr "n1"; VStr "n2"]; p_format := 113;
         p_userOptions := VObj [("onlyHash", VBool false)];
         p_options := None; p_formatImpl := None |}, registered) in
  yielded r = [mkCID 1 "dag-cbor" "undefined:n1"; mkCID 1 "dag-cbor" "undefined:n2"]
  /\ ended r = Finished
  /\ put_cids (trace (snd (final r)))
     = [mkCID 1 "dag-cbor" "undefined:n1"; mkCID 1 "dag-cbor" "undefined:n2"].
Proof. vm_compute. repeat split. Qed.

(** One node stored and read back under the CID [put] yielded. *)
Lemma put_then_get_round_trip_witness :
  exists st wput,
    put [VStr "n1"] (VNum 113) VUndefined = Ok st
    /\ yielded (consume 2 (put_next (C:=static)) (st, registered))
       = [mkCID 1 "dag-cbor" "undefined:n1"]
    /\ ended (consume 2 (put_next (C:=static)) (st, registered)) = Finished
    /\ snd (final (consume 2 (put_next (C:=static)) (st, registered))) = wput
    /\ yielded (consume 2 (get_next (C:=static))
                  (get [mkCID 1 "dag-cbor" "undefined:n1"], wput))
       = [VStr "n1"]
    /\ ended (consume 2 (get_next (C:=static))
                (get [mkCID 1 "dag-cbor" "undefined:n1"], wput)) = Finished.
Proof.
  refine (put_then_get_round_trip (C:=static) (VStr "n1") 113
            (registry_entry dagCbor) (mkCID 1 "dag-cbor" "undefined:n1") "n1"
            registered
            ({| block_data := "n1";
                block_cid := mkCID 1 "dag-cbor" "undefined:n1" |} :: blocks)
            _ eq_refl _ eq_refl eq_refl eq_refl _).
  - vm_compute. reflexivity.
  - vm_compute. reflexivity.
  - vm_compute. reflexivity.
Defined.

(** Both blocks removed. *)
Lemma remove_yields_every_cid_witness :
  consume 5 (remove_next (C:=static)) (remove [leaf; root], registered)
  = mkRun [leaf; root] Finished
          ([], snd (delete_in_order (C:=static) [leaf; root] registered)).
Proof.
  refine (proj1 (remove_yields_every_cid (C:=static) [leaf; root] registered
                   (snd (delete_in_order (C:=static) [leaf; root] registered))
                   5%nat _ _)).
  - vm_compute. reflexivity.
  - cbn. lia.
Defined.

(** [tree(root)]: the three paths of the root block. *)
Lemma tree_lists_child_paths_witness :
  let cl := {| t_offsetPath := VStr "";
               t_options := [("recursive", VBool false)];
               t_init := {| t_cid := Some root; t_treePaths := [];
                            t_block := None; t_queue := [(root, "")];
                            t_basePath := None |} |} in
  tree root VUndefined VUndefined = Ok cl
  /\ yielded (consume 5 (tree_next (C:=static) (t_offsetPath cl) (t_options cl))
                (t_init cl, registered))
     = ["a"; "a/b"; "c"].
Proof.
  cbv zeta. split; [reflexivity|].
  refine (f_equal yielded
            (proj1 (tree_lists_child_paths (C:=static) root VUndefined VUndefined
                      _ registered registered (registry_entry dagCbor)
                      {| block_data := "root"; block_cid := root |}
                      ["a"; "a/b"; "c"] 5%nat eq_refl eq_refl _ eq_refl eq_refl
                      _ _))).
  - vm_compute. reflexivity.
  - discriminate.
  - cbn. lia.
Defined.

(** [tree(leaf)]: the leaf has no paths, and the iterator yields
    ["undefined"]. *)
Lemma tree_of_node_without_paths_witness :
  yielded (consume 5 (tree_next (C:=static) (VStr "") [("recursive", VBool false)])
             ({| t_cid := Some leaf; t_treePaths := [];
                 t_block := None; t_queue := [(leaf, "")];
                 t_basePath := None |}, registered))
  = ["undefined"].
Proof.
  refine (f_equal yielded
            (tree_of_node_without_paths (C:=static) leaf VUndefined
               _ registered registered (registry_entry dagCbor)
               {| block_data := "leaf"; block_cid := leaf |} 3%nat
               eq_refl eq_refl _ eq_refl eq_refl)).
  vm_compute. reflexivity.
Defined.

(** [tree(root, { recursive: true })] where [a] links to the leaf. *)
Lemma tree_recursive_one_link_witness :
  yielded (consume 6 (tree_next (C:=static) (VStr "") [("recursive", VBool true)])
             ({| t_cid := Some root; t_treePaths := []; t_block := None;
                 t_queue := [(root, "")]; t_basePath := None |},
              registered_linked))
  = ["a"; "a/x"; "a/y"]
  /\ trace (snd (final (consume 6
       (tree_next (C:=static) (VStr "") [("recursive", VBool true)])
       ({| t_cid := Some root; t_treePaths := []; t_block := None;
           t_queue := [(root, "")]; t_basePath := None |},
        registered_linked))))
     = [EvGet root; EvGet leaf].
Proof.
  refine ((fun H => conj (proj1 H) (proj2 (proj2 H)))
            (tree_recursive_one_link (C:=static) [("recursive", VBool true)]
               113 (registry_entry dagCborLinked) root leaf
               {| block_data := "root"; block_cid := root |}
               {| block_data := "leaf"; block_cid := leaf |}
               "a" ["x"; "y"] (VObj [("/", VStr "leaf")]) registered_linked
               6%nat eq_refl _ _ _ _ _ eq_refl eq_refl eq_refl eq_refl eq_refl
               eq_refl eq_refl _ _ _)).
  - vm_compute. reflexivity.
  - vm_compute. reflexivity.
  - vm_compute. reflexivity.
  - vm_compute. reflexivity.
  - vm_compute. reflexivity.
  - discriminate.
  - constructor; [exists (VBool false); split; reflexivity|].
    constructor; [exists (VBool false); split; reflexivity|].
    constructor.
  - cbn. lia.
Defined.

(** A dag-pb CID on the resolver that has dag-cbor only. *)
Lemma unknown_codec_fails_before_fetch_witness :
  consume 5 (resolve_next (C:=static))
          ({| r_cid := Some foreign; r_path := "a" |}, registered)
  = mkRun [] (Failed (NoResolverFound (Some 112)))
          ({| r_cid := Some foreign; r_path := "a" |},
           record (EvLoad (Some 112)) registered)
  /\ store_calls (trace (record (EvLoad (Some 112)) registered)) = [].
Proof.
  refine ((fun H => conj (proj1 H) (proj2 (proj2 H)))
            (unknown_codec_fails_before_fetch (C:=static) foreign "a"
               (VStr "") [("recursive", VBool false)] registered 4%nat
               eq_refl _)).
  vm_compute. reflexivity.
Defined.

(** The root block read on a resolver without any format. *)
Lemma get_unknown_codec_fetches_first_witness :
  yielded (consume 5 (get_next (C:=static))
             (get [root; leaf], empty (C:=static) blocks)) = []
  /\ ended (consume 5 (get_next (C:=static))
              (get [root; leaf], empty (C:=static) blocks))
     = Failed (NoResolverFound (Some 113))
  /\ fst (final (consume 5 (get_next (C:=static))
                   (get [root; leaf], empty (C:=static) blocks))) = [leaf]
  /\ store_calls (trace (snd (final (consume 5 (get_next (C:=static))
                   (get [root; leaf], empty (C:=static) blocks)))))
     = [EvGet root].
Proof.
  refine (get_unknown_codec_fetches_first (C:=static) root [leaf]
            {| block_data := "root"; block_cid := root |}
            (empty (C:=static) blocks) 4%nat eq_refl eq_refl _).
  vm_compute. reflexivity.
Defined.

(** [put] of one node as dag-pb on the resolver that has dag-cbor
    only. *)
Lemma put_unknown_format_fails_at_first_node_witness :
  exists st,
    put [VStr "n1"] (VNum 112) VUndefined = Ok st
    /\ consume 5 (put_next (C:=static)) (st, registered)
       = mkRun [] (Failed (NoResolverFound (Some 112)))
               (set_nodes [] st, record (EvLoad (Some 112)) registered).
Proof.
  refine (put_unknown_format_fails_at_first_node (C:=static) [VStr "n1"] 112
            VUndefined registered 4%nat eq_refl _).
  vm_compute. reflexivity.
Defined.

(** [put] as raw of a node whose CID names dag-cbor: the block written
    holds dag-cbor's bytes, not raw's. *)
Lemma put_serializes_with_codec_of_cid_witness :
  serialize (util rawAsCbor) (VStr "n1") = Ok "raw bytes"
  /\ exists st,
       put [VStr "n1"] (VNum 85) VUndefined = Ok st
       /\ trace (snd (snd (put_next (C:=static) (st, registered_two))))
          = [EvPut {| block_data := "n1";
                      block_cid := mkCID 1 "dag-cbor" "undefined:n1" |}]
       /\ bs (snd (snd (put_next (C:=static) (st, registered_two))))
          = {| block_data := "n1";
               block_cid := mkCID 1 "dag-cbor" "undefined:n1" |} :: blocks.
Proof.
  split; [reflexivity|].
  refine (put_serializes_with_codec_of_cid (C:=static) (VStr "n1") 85 113
            (registry_entry rawAsCbor) (registry_entry dagCbor)
            (mkCID 1 "dag-cbor" "undefined:n1") "n1" registered_two
            _ eq_refl _ _ eq_refl).
  - vm_compute. reflexivity.
  - vm_compute. reflexivity.
  - vm_compute. reflexivity.
Defined.
